(** * Metaballs 2D: the simulation, the field sampler and the marching-squares
    vertex stage of [src/App.tsx], embedded in Rocq.

    The program computes with JavaScript numbers (IEEE binary64) on the CPU and
    with GLSL [float]s (binary32) on the GPU.  The embedding is written once,
    over an interface [Num] of the arithmetic the source uses, and is run at
    three instances:
    - [RNum], exact real arithmetic, where the algebraic properties are proved
      (rounding is outside this instance);
    - [F64] and [F32], IEEE-754 binary64 and binary32 as specified by the
      Standard Library's [SpecFloat], where the code is evaluated on concrete
      inputs, infinities and NaN included. *)

From Stdlib Require Import ZArith List Bool Lia Reals Lra.
From Stdlib Require Import SpecFloat.
Import ListNotations.

Set Implicit Arguments.
Local Open Scope Z_scope.

(** ** The arithmetic interface *)

Class Num (num : Type) : Type := {
  ofZ : Z -> num;                 (* an integer literal, an int turned float *)
  decimal : Z -> Z -> num;        (* [decimal a b]: the decimal literal a/b  *)
  add : num -> num -> num;
  sub : num -> num -> num;
  mul : num -> num -> num;
  div : num -> num -> num;
  neg : num -> num;
  sqrt : num -> num;
  ltb : num -> num -> bool        (* the test [a < b]                        *)
}.

Definition gtb {num} `{Num num} (a b : num) : bool := ltb b a.
Definition zero {num} `{Num num} : num := ofZ 0.
(** [Math.pow(a, 2)], taken as [a * a] *)
Definition pow2 {num} `{Num num} (a : num) : num := mul a a.

(** Exact real arithmetic. *)
Definition Rltb (a b : R) : bool := if Rlt_dec a b then true else false.

#[export] Instance RNum : Num R := {
  ofZ := IZR;
  decimal := fun a b => (IZR a / IZR b)%R;
  add := Rplus;
  sub := Rminus;
  mul := Rmult;
  div := Rdiv;
  neg := Ropp;
  sqrt := R_sqrt.sqrt;
  ltb := Rltb
}.

(** IEEE-754 arithmetic with [prec] bits of mantissa and exponent bound
    [emax], rounding to nearest even; NaN carries no payload. *)
Module IEEE.
Section Format.
Variables prec emax : Z.

Definition fromZ (z : Z) : spec_float := binary_normalize prec emax z 0 false.

Definition instance : Num spec_float := {|
  ofZ := fromZ;
  decimal := fun a b => SFdiv prec emax (fromZ a) (fromZ b);
  add := SFadd prec emax;
  sub := SFsub prec emax;
  mul := SFmul prec emax;
  div := SFdiv prec emax;
  neg := SFopp;
  sqrt := SFsqrt prec emax;
  ltb := SFltb
|}.
End Format.
End IEEE.

(** JavaScript's [number]. *)
Definition F64 : Num spec_float := IEEE.instance 53 1024.
(** GLSL's [highp float]. *)
Definition F32 : Num spec_float := IEEE.instance 24 128.

Definition isNaN (f : spec_float) : bool :=
  match f with S754_nan => true | _ => false end.

Definition isFinite (f : spec_float) : bool :=
  match f with S754_zero _ | S754_finite _ _ _ => true | _ => false end.

(** ** The program *)

Section Program.
Context {num : Type} `{Num num}.

(** *** Data model (class [Space], lines 188-211) *)

Record Metaball : Type := {
  x : num;
  y : num;
  xvel : num;
  yvel : num;
  radius : num
}.

Record Space : Type := {
  screenWidth : num;
  screenHeight : num;
  gridWidth : Z;
  gridHeight : Z;
  isoLevel : num;
  data : list num;                    (* the Float32Array behind the texture *)
  metaballs : list Metaball;
  clicking : bool;
  clickX : num;
  clickY : num;
  draggedMetaballIndex : Z            (* -1 when no metaball is dragged *)
}.

(** Field assignments, [ball.x = v] and the like. *)
Definition set_x (ball : Metaball) (v : num) : Metaball :=
  {| x := v; y := y ball; xvel := xvel ball; yvel := yvel ball;
     radius := radius ball |}.
Definition set_y (ball : Metaball) (v : num) : Metaball :=
  {| x := x ball; y := v; xvel := xvel ball; yvel := yvel ball;
     radius := radius ball |}.
Definition set_xvel (ball : Metaball) (v : num) : Metaball :=
  {| x := x ball; y := y ball; xvel := v; yvel := yvel ball;
     radius := radius ball |}.
Definition set_yvel (ball : Metaball) (v : num) : Metaball :=
  {| x := x ball; y := y ball; xvel := xvel ball; yvel := v;
     radius := radius ball |}.

Definition set_metaballs (s : Space) (l : list Metaball) : Space :=
  {| screenWidth := screenWidth s; screenHeight := screenHeight s;
     gridWidth := gridWidth s; gridHeight := gridHeight s;
     isoLevel := isoLevel s; data := data s; metaballs := l;
     clicking := clicking s; clickX := clickX s; clickY := clickY s;
     draggedMetaballIndex := draggedMetaballIndex s |}.
Definition set_data (s : Space) (d : list num) : Space :=
  {| screenWidth := screenWidth s; screenHeight := screenHeight s;
     gridWidth := gridWidth s; gridHeight := gridHeight s;
     isoLevel := isoLevel s; data := d; metaballs := metaballs s;
     clicking := clicking s; clickX := clickX s; clickY := clickY s;
     draggedMetaballIndex := draggedMetaballIndex s |}.
Definition set_pointer (s : Space) (c : bool) (px py : num) : Space :=
  {| screenWidth := screenWidth s; screenHeight := screenHeight s;
     gridWidth := gridWidth s; gridHeight := gridHeight s;
     isoLevel := isoLevel s; data := data s; metaballs := metaballs s;
     clicking := c; clickX := px; clickY := py;
     draggedMetaballIndex := draggedMetaballIndex s |}.
Definition set_dragged (s : Space) (c : bool) (i : Z) : Space :=
  {| screenWidth := screenWidth s; screenHeight := screenHeight s;
     gridWidth := gridWidth s; gridHeight := gridHeight s;
     isoLevel := isoLevel s; data := data s; metaballs := metaballs s;
     clicking := c; clickX := clickX s; clickY := clickY s;
     draggedMetaballIndex := i |}.

(** *** [addMetaball], [onMove], [onRelease] (lines 286-310) *)

Definition addMetaball (s : Space) (x0 y0 xvel0 yvel0 radius0 : num) : Space :=
  set_metaballs s
    (metaballs s ++
     [{| x := x0; y := y0; xvel := xvel0; yvel := yvel0; radius := radius0 |}]).

Definition onMove (s : Space) (px py : num) : Space :=
  set_pointer s (clicking s) px py.

Definition onRelease (s : Space) : Space := set_dragged s false (-1).

(** *** [step] (lines 312-347) *)

(** The body of the loop for the metaball at index [i], first half (lines
    316-328): the dragged metaball follows the pointer, the others move by
    their velocity. *)
Definition moveBall (s : Space) (i : Z) (ball : Metaball) : Metaball :=
  if draggedMetaballIndex s =? i then
    let newX := add (mul (decimal 1 10) (clickX s)) (mul (decimal 9 10) (x ball)) in
    let newY := add (mul (decimal 1 10) (clickY s)) (mul (decimal 9 10) (y ball)) in
    let ball := set_xvel ball (sub newX (x ball)) in
    let ball := set_yvel ball (sub newY (y ball)) in
    let ball := set_x ball newX in
    set_y ball newY
  else
    let ball := set_x ball (add (x ball) (xvel ball)) in
    set_y ball (add (y ball) (yvel ball)).

(** Second half (lines 330-345): the four tests against the walls, in the
    order of the source, each on the metaball as the tests before left it. *)
Definition reflectBall (s : Space) (ball : Metaball) : Metaball :=
  let ball :=
    if ltb (x ball) (radius ball)
    then set_xvel (set_x ball (radius ball)) (neg (xvel ball)) else ball in
  let ball :=
    if ltb (y ball) (radius ball)
    then set_yvel (set_y ball (radius ball)) (neg (yvel ball)) else ball in
  let ball :=
    if gtb (x ball) (sub (screenWidth s) (radius ball))
    then set_xvel (set_x ball (sub (screenWidth s) (radius ball))) (neg (xvel ball))
    else ball in
  let ball :=
    if gtb (y ball) (sub (screenHeight s) (radius ball))
    then set_yvel (set_y ball (sub (screenHeight s) (radius ball))) (neg (yvel ball))
    else ball in
  ball.

Definition stepBall (s : Space) (i : Z) (ball : Metaball) : Metaball :=
  reflectBall s (moveBall s i ball).

(** The loop over [this.metaballs], from index [i] on. *)
Fixpoint stepFrom (s : Space) (i : Z) (balls : list Metaball) : list Metaball :=
  match balls with
  | [] => []
  | ball :: rest => stepBall s i ball :: stepFrom s (i + 1) rest
  end.

Definition step (s : Space) : Space :=
  set_metaballs s (stepFrom s 0 (metaballs s)).

(** [n] calls of [step]. *)
Fixpoint steps (n : nat) (s : Space) : Space :=
  match n with
  | O => s
  | S k => steps k (step s)
  end.

(** *** [onClick] (lines 260-284) *)

(** An entry of [metaballsWithDistances]. *)
Record Candidate : Type := {
  metaball : Metaball;
  distance : num;
  index : Z
}.

(** [this.metaballs.map((metaball, index) => ...)], from index [i] on. *)
Fixpoint withDistancesFrom (px py : num) (i : Z) (balls : list Metaball)
  : list Candidate :=
  match balls with
  | [] => []
  | ball :: rest =>
      {| metaball := ball;
         distance := sqrt (add (pow2 (sub (x ball) px)) (pow2 (sub (y ball) py)));
         index := i |} :: withDistancesFrom px py (i + 1) rest
  end.

(** [(a, b) => a.distance - b.distance] *)
Definition comparator (a b : Candidate) : num := sub (distance a) (distance b).

(** [Array.prototype.sort]: a stable sort; [a] goes behind [b] only when the
    comparator is positive on [(a, b)]. *)
Fixpoint insert (cmp : Candidate -> Candidate -> num) (a : Candidate)
    (l : list Candidate) : list Candidate :=
  match l with
  | [] => [a]
  | b :: rest => if gtb (cmp a b) zero then b :: insert cmp a rest else a :: l
  end.

Definition sort (cmp : Candidate -> Candidate -> num) (l : list Candidate)
  : list Candidate := fold_right (insert cmp) [] l.

(** How a call ends: normally, or by throwing a [TypeError]; either way with
    the state of the object at that moment. *)
Inductive Completion : Type :=
| Normal (s : Space)
| TypeError (s : Space).

Definition onClick (s : Space) (px py : num) : Completion :=
  let clickRadius := ofZ 200 in
  let s := set_pointer s true px py in
  let metaballsWithDistances :=
    sort comparator (withDistancesFrom px py 0 (metaballs s)) in
  match metaballsWithDistances with
  | [] => TypeError s         (* [.distance] of [undefined] *)
  | first :: _ =>
      if ltb (distance first) clickRadius
      then Normal (set_dragged s (clicking s) (index first))
      else Normal s
  end.

(** *** [draw], the field sampler (lines 349-375) *)

(** The values of the counter of [for (let k = 0; k < n; k++)]. *)
Definition range (n : Z) : list Z := map Z.of_nat (seq 0 (Z.to_nat n)).

Fixpoint update (l : list num) (i : nat) (v : num) : list num :=
  match l, i with
  | [], _ => []
  | _ :: rest, O => v :: rest
  | h :: rest, S k => h :: update rest k v
  end.

(** [array[i] = v] on a typed array: a write outside of it is dropped.  The
    array is a [Float32Array]; the narrowing of the value written to single
    precision is not modelled. *)
Definition store (l : list num) (i : Z) (v : num) : list num :=
  if i <? 0 then l else update l (Z.to_nat i) v.

(** One turn of the loop over the metaballs (lines 358-370). *)
Definition accumulate (xpos ypos : num) (sum : num) (ball : Metaball) : num :=
  let dist := sqrt (add (pow2 (sub xpos (x ball))) (pow2 (sub ypos (y ball)))) in
  let r := radius ball in
  let l := mul (ofZ 3) r in
  if ltb dist l
  then add sum (sub (sub (div r dist) (div (mul r (sub dist l)) (mul l (sub l r))))
                    (div r l))
  else sum.

Definition fieldAt (balls : list Metaball) (xpos ypos : num) : num :=
  fold_left (accumulate xpos ypos) balls zero.

(** The inner loop, over [y], for the column [gx]. *)
Definition drawColumn (s : Space) (gridSpacing : num) (d : list num) (gx : Z)
  : list num :=
  fold_left
    (fun d gy =>
       let xpos := mul (ofZ gx) gridSpacing in
       let ypos := mul (ofZ gy) gridSpacing in
       store d (gy * gridWidth s + gx) (fieldAt (metaballs s) xpos ypos))
    (range (gridHeight s)) d.

Definition draw (s : Space) (gridSpacing : num) : Space :=
  set_data s (fold_left (drawColumn s gridSpacing) (range (gridWidth s)) (data s)).

(** *** The vertex shader (lines 87-169) *)

Definition marchingSquaresTable : list Z := [
  -1; -1; -1; -1;
   0;  1; -1; -1;
   0;  3; -1; -1;
   1;  3; -1; -1;
   2;  3; -1; -1;
   0;  3;  1;  2;
   0;  2; -1; -1;
   1;  2; -1; -1;
   1;  2; -1; -1;
   0;  2; -1; -1;
   0;  1;  2;  3;
   2;  3; -1; -1;
   1;  3; -1; -1;
   0;  3; -1; -1;
   0;  1; -1; -1;
  -1; -1; -1; -1
].

Definition edgeCornersA : list Z := [0; 3; 2; 1].
Definition edgeCornersB : list Z := [1; 0; 3; 2].

(** [a[i]] on a GLSL array. *)
Definition at_ {A : Type} (a : list A) (i : Z) (d : A) : A := nth (Z.to_nat i) a d.

Definition vec2 : Type := (num * num)%type.
Record vec3 : Type := Vec3 { xy : vec2; z : num }.

Definition vadd (a b : vec2) : vec2 := (add (fst a) (fst b), add (snd a) (snd b)).
Definition vsub (a b : vec2) : vec2 := (sub (fst a) (fst b), sub (snd a) (snd b)).
Definition vscale (t : num) (a : vec2) : vec2 := (mul t (fst a), mul t (snd a)).

Definition toNDC (gx gy gridWidth gridHeight : Z) : vec2 :=
  (sub (mul (ofZ 2) (div (ofZ gx) (ofZ (gridWidth - 1)))) (ofZ 1),
   sub (mul (ofZ 2) (div (ofZ gy) (ofZ (gridHeight - 1)))) (ofZ 1)).

Definition vertexInterp (isoLevel : num) (v1 v2 : vec3) : vec2 :=
  let t := div (sub isoLevel (z v1)) (sub (z v2) (z v1)) in
  vadd (xy v1) (vscale t (vsub (xy v2) (xy v1))).

(** [texelFetch(uTexture, ivec2(tx, ty), 0).r], the texture being the
    row-major upload of [data] with rows of [gridWidth] texels. *)
Definition texelFetch (uTexture : list num) (gridWidth : Z) (tx ty : Z) : num :=
  at_ uTexture (ty * gridWidth + tx) zero.

(** The local [corners] of [main], for the cell at [(gridx, gridy)]. *)
Definition corners (gridWidth gridHeight : Z) (uTexture : list num)
    (gridx gridy : Z) : list vec3 := [
  Vec3 (toNDC (gridx + 0) (gridy + 0) gridWidth gridHeight)
       (texelFetch uTexture gridWidth (gridx + 0) (gridy + 0));
  Vec3 (toNDC (gridx + 1) (gridy + 0) gridWidth gridHeight)
       (texelFetch uTexture gridWidth (gridx + 1) (gridy + 0));
  Vec3 (toNDC (gridx + 1) (gridy + 1) gridWidth gridHeight)
       (texelFetch uTexture gridWidth (gridx + 1) (gridy + 1));
  Vec3 (toNDC (gridx + 0) (gridy + 1) gridWidth gridHeight)
       (texelFetch uTexture gridWidth (gridx + 0) (gridy + 1))
].

Definition vec3_0 : vec3 := Vec3 (zero, zero) zero.

(** The local [squareIndex] of [main] (lines 151-155). *)
Definition squareIndex (isoLevel : num) (corners : list vec3) : Z :=
  let squareIndex := 0 in
  let squareIndex :=
    if gtb (z (at_ corners 0 vec3_0)) isoLevel then squareIndex + 1 else squareIndex in
  let squareIndex :=
    if gtb (z (at_ corners 1 vec3_0)) isoLevel then squareIndex + 2 else squareIndex in
  let squareIndex :=
    if gtb (z (at_ corners 2 vec3_0)) isoLevel then squareIndex + 4 else squareIndex in
  let squareIndex :=
    if gtb (z (at_ corners 3 vec3_0)) isoLevel then squareIndex + 8 else squareIndex in
  squareIndex.

(** What one run of the vertex shader leaves behind.  [render] only ever
    holds 1.0 or 0.0 and the fragment shader only tests [render == 0.0] (to
    [discard]); it is kept as a boolean, [true] for 1.0.  [gl_Position] is
    not written on the early return. *)
Record VertexOut : Type := {
  render : bool;
  gl_Position : option (vec2 * num * num)
}.

(** [main] (lines 136-168); [/] and [%] on [int] are [Z.quot] and [Z.rem]. *)
Definition main (gridWidth gridHeight : Z) (uTexture : list num)
    (isoLevel : num) (gl_VertexID : Z) : VertexOut :=
  let id := Z.quot gl_VertexID 4 in
  let edgeId := Z.quot (Z.rem gl_VertexID 4) 2 in
  let cornerId := Z.rem gl_VertexID 2 in
  let gridx := Z.quot id (gridHeight - 1) in
  let gridy := Z.rem id (gridHeight - 1) in
  let corners := corners gridWidth gridHeight uTexture gridx gridy in
  let squareIndex := squareIndex isoLevel corners in
  let edgeIndex :=
    at_ marchingSquaresTable (4 * squareIndex + 2 * edgeId + cornerId) 0 in
  if edgeIndex =? -1 then
    {| render := false; gl_Position := None |}
  else
    let interpolated :=
      vertexInterp isoLevel
        (at_ corners (at_ edgeCornersA edgeIndex 0) vec3_0)
        (at_ corners (at_ edgeCornersB edgeIndex 0) vec3_0) in
    {| render := true; gl_Position := Some (interpolated, ofZ 0, ofZ 1) |}.

(** The corners and the case signature that [main] computes for cell [id]. *)
Definition cellCorners (gridWidth gridHeight : Z) (uTexture : list num) (id : Z)
  : list vec3 :=
  corners gridWidth gridHeight uTexture
          (Z.quot id (gridHeight - 1)) (Z.rem id (gridHeight - 1)).

Definition cellCase (gridWidth gridHeight : Z) (uTexture : list num)
    (isoLevel : num) (id : Z) : Z :=
  squareIndex isoLevel (cellCorners gridWidth gridHeight uTexture id).

(** *** [gl.drawArrays(gl.LINES, 0, n)] and the fragment shader

    Line [k] joins the vertices [2k] and [2k+1]; the fragment shader discards
    what carries [render == 0.0].  The cell [id] owns the lines [2 id] and
    [2 id + 1]. *)
Definition lineDrawn (gridWidth gridHeight : Z) (uTexture : list num)
    (isoLevel : num) (k : Z) : bool :=
  render (main gridWidth gridHeight uTexture isoLevel (2 * k))
  && render (main gridWidth gridHeight uTexture isoLevel (2 * k + 1)).

Definition cellSegments (gridWidth gridHeight : Z) (uTexture : list num)
    (isoLevel : num) (id : Z) : list Z :=
  filter (lineDrawn gridWidth gridHeight uTexture isoLevel) [2 * id; 2 * id + 1].
End Program.

Arguments Metaball : clear implicits.
Arguments Space : clear implicits.
Arguments Candidate : clear implicits.
Arguments Completion : clear implicits.
Arguments vec2 : clear implicits.
Arguments vec3 : clear implicits.
Arguments VertexOut : clear implicits.

(** ** The case table as the specification prints it *)

Definition specTable : list (list Z) := [
  [-1; -1; -1; -1]; [0; 1; -1; -1]; [0; 3; -1; -1]; [1; 3; -1; -1];
  [2; 3; -1; -1];   [0; 3; 1; 2];   [0; 2; -1; -1]; [1; 2; -1; -1];
  [1; 2; -1; -1];   [0; 2; -1; -1]; [0; 1; 2; 3];   [2; 3; -1; -1];
  [1; 3; -1; -1];   [0; 3; -1; -1]; [0; 1; -1; -1]; [-1; -1; -1; -1]
].

(** [table[case][slot]] *)
Definition specEntry (case slot : Z) : Z := at_ (at_ specTable case []) slot 0.

(** The edge-index pairs of row [case] that are in use (no [-1] in them). *)
Definition specPairs (case : Z) : list (Z * Z) :=
  filter (fun p => negb (fst p =? -1) && negb (snd p =? -1))
         [(specEntry case 0, specEntry case 1); (specEntry case 2, specEntry case 3)].

(** A grid of one cell whose corner [i] is above the level 1 exactly when bit
    [i] of [case] is set: the texture of a 2 x 2 grid, row by row. *)
Definition signatureCell {num : Type} `{Num num} (case : Z) : list num :=
  let corner i := if Z.testbit case i then ofZ 2 else ofZ 0 in
  [corner 0; corner 1; corner 3; corner 2].

(** ** Concrete runs under IEEE arithmetic *)

(** The shader's arithmetic: binary32. *)
Module Binary32.
#[local] Existing Instance F32.

(** The edge from (0,0), value 0.5, to (1,0), value 1.5, cut at level 1.0. *)
Definition crossingExample : vec2 spec_float :=
  vertexInterp (ofZ 1)
    (Vec3 (ofZ 0, ofZ 0) (decimal 5 10)) (Vec3 (ofZ 1, ofZ 0) (decimal 15 10)).

(** The edge from (0,0) to (1,0) with the value 1.0 at both ends, cut at
    level 1.0 and at level 2.0. *)
Definition flatEdgeAtLevel : vec2 spec_float :=
  vertexInterp (ofZ 1) (Vec3 (ofZ 0, ofZ 0) (ofZ 1)) (Vec3 (ofZ 1, ofZ 0) (ofZ 1)).
Definition flatEdgeBelowLevel : vec2 spec_float :=
  vertexInterp (ofZ 2) (Vec3 (ofZ 0, ofZ 0) (ofZ 1)) (Vec3 (ofZ 1, ofZ 0) (ofZ 1)).

(** A grid of one cell whose corner 0 carries an infinite sample, as [draw]
    stores at the centre of a metaball, and the first vertex of the cell. *)
Definition infiniteCorner : list spec_float :=
  [S754_infinity false; ofZ 0; ofZ 0; ofZ 0].
Definition infiniteCornerVertex : VertexOut spec_float :=
  main 2 2 infiniteCorner (ofZ 1) 0.
End Binary32.

(** The script's arithmetic: binary64. *)
Module Binary64.
#[local] Existing Instance F64.

Definition crossingExampleDouble : vec2 spec_float :=
  vertexInterp (ofZ 1)
    (Vec3 (ofZ 0, ofZ 0) (decimal 5 10)) (Vec3 (ofZ 1, ofZ 0) (decimal 15 10)).

(** The scenario of the specification: one metaball of radius 10 at (50, 50)
    on a 100 x 100 screen, sampled with a grid spacing of 10 on an 11 x 11
    grid.  The grid point (5, 5) is the centre of the metaball. *)
Definition centredBall : Metaball spec_float :=
  {| x := ofZ 50; y := ofZ 50; xvel := ofZ 1; yvel := ofZ 1; radius := ofZ 10 |}.

Definition scenario : Space spec_float :=
  {| screenWidth := ofZ 100; screenHeight := ofZ 100;
     gridWidth := 11; gridHeight := 11; isoLevel := ofZ 1;
     data := repeat (ofZ 0) 121; metaballs := [centredBall];
     clicking := false; clickX := ofZ 0; clickY := ofZ 0;
     draggedMetaballIndex := -1 |}.

Definition scenarioData : list spec_float := data (draw scenario (ofZ 10)).

(** The sample at the centre, and what it would be with the metaball left
    out of the sum. *)
Definition centreSample : spec_float := at_ scenarioData (5 * 11 + 5) S754_nan.
Definition centreSkipped : spec_float := fieldAt [] (ofZ 50) (ofZ 50).

(** The distance from the grid point (5, 5) to the centre, and the quotient
    [r / dist] there. *)
Definition centreDist : spec_float :=
  sqrt (add (pow2 (sub (mul (ofZ 5) (ofZ 10)) (x centredBall)))
            (pow2 (sub (mul (ofZ 5) (ofZ 10)) (y centredBall)))).
Definition centreQuotient : spec_float := div (radius centredBall) centreDist.
End Binary64.

(** ** The walls and the drag in exact arithmetic *)

(** The wall rule for one axis as the specification words it: if position -
    radius < 0, clamp to the radius and negate the velocity; if position +
    radius exceeds the extent, clamp to extent - radius and negate. *)
Definition specReflectAxis (position velocity radius extent : R) : R * R :=
  let (position, velocity) :=
    if Rltb (position - radius) 0 then (radius, - velocity)%R
    else (position, velocity) in
  if Rltb extent (position + radius) then (extent - radius, - velocity)%R
  else (position, velocity).

(** The centre is at least a radius away from every wall. *)
Definition inBounds (s : Space R) (ball : Metaball R) : Prop :=
  (radius ball <= x ball <= screenWidth s - radius ball
   /\ radius ball <= y ball <= screenHeight s - radius ball)%R.

(** The metaball is not wider or higher than the screen. *)
Definition fitsScreen (s : Space R) (ball : Metaball R) : Prop :=
  (2 * radius ball <= screenWidth s /\ 2 * radius ball <= screenHeight s)%R.

(** Euclidean distance from the centre of a metaball to a point. *)
Definition distanceTo (ball : Metaball R) (px py : R) : R :=
  R_sqrt.sqrt ((x ball - px) * (x ball - px) + (y ball - py) * (y ball - py)).

(** A 100 x 100 screen with a grid spacing of 10, holding [balls], the pointer
    at [(px, py)] and the metaball [dragged] being dragged ([-1]: none). *)
Definition arena (balls : list (Metaball R)) (px py : R) (dragged : Z) : Space R :=
  {| screenWidth := 100%R; screenHeight := 100%R; gridWidth := 11; gridHeight := 11;
     isoLevel := 1%R; data := repeat 0%R 121; metaballs := balls;
     clicking := 0 <=? dragged; clickX := px; clickY := py;
     draggedMetaballIndex := dragged |}.

(** A metaball wider than the screen. *)
Definition wideBall : Metaball R :=
  {| x := 60; y := 50; xvel := -1; yvel := 0; radius := 60 |}%R.

(** A metaball touching the left wall, and one in the lower left corner
    heading out. *)
Definition wallBall : Metaball R :=
  {| x := 10; y := 50; xvel := -1; yvel := 0; radius := 10 |}%R.
Definition cornerBall : Metaball R :=
  {| x := 10; y := 10; xvel := -1; yvel := -2; radius := 10 |}%R.

(** ** The field as the specification words it *)

(** [|p - c_i|] for the grid point [p = (px, py)]. *)
Definition specDistance (px py : R) (ball : Metaball R) : R :=
  R_sqrt.sqrt ((px - x ball) * (px - x ball) + (py - y ball) * (py - y ball)).

(** The contribution of one metaball at [p]. *)
Definition specContribution (px py : R) (ball : Metaball R) : R :=
  let dist := specDistance px py ball in
  let r := radius ball in
  let l := (3 * r)%R in
  if Rltb dist l
  then (r / dist - r * (dist - l) / (l * (l - r)) - r / l)%R
  else 0%R.

(** The sum of the contributions of all the metaballs. *)
Definition specField (balls : list (Metaball R)) (px py : R) : R :=
  fold_right (fun ball acc => (specContribution px py ball + acc)%R) 0%R balls.

(** A metaball in the middle of the 100 x 100 screen. *)
Definition middleBall : Metaball R :=
  {| x := 50; y := 50; xvel := 1; yvel := 1; radius := 10 |}%R.

(** ** The program around the claims *)

Section Surroundings.
Context {num : Type} `{Num num}.

(** [Math.min] (of two numbers, neither NaN). *)
Definition Math_min (a b : num) : num := if ltb b a then b else a.

(** The results of the seven calls of [Math.random] that one turn of the
    loop of [App] makes (lines 26-33), in the order of the calls. *)
Record Randoms : Type := {
  uRadius : num;
  uX : num;
  uY : num;
  uSignX : num;
  uSpeedX : num;
  uSignY : num;
  uSpeedY : num
}.

(** One turn of the loop of [App] (lines 26-35). *)
Definition spawnMetaball (space : Space num) (u : Randoms) : Space num :=
  let minDimension := Math_min (screenWidth space) (screenHeight space) in
  let radius :=
    add (mul (uRadius u) (div minDimension (ofZ 12))) (div minDimension (ofZ 24)) in
  addMetaball space
    (add (mul (uX u) (sub (screenWidth space) (mul (ofZ 2) radius))) radius)
    (add (mul (uY u) (sub (screenHeight space) (mul (ofZ 2) radius))) radius)
    (mul (if ltb (uSignX u) (decimal 5 10) then ofZ (-1) else ofZ 1)
         (add (mul (uSpeedX u) (div minDimension (ofZ 120)))
              (div minDimension (ofZ 1000))))
    (mul (if ltb (uSignY u) (decimal 5 10) then ofZ (-1) else ofZ 1)
         (add (mul (uSpeedY u) (div minDimension (ofZ 120)))
              (div minDimension (ofZ 1000))))
    radius.

(** The loop of [App] (lines 25-36), one element of [us] per turn. *)
Definition spawnMetaballs (space : Space num) (us : list Randoms) : Space num :=
  fold_left spawnMetaball us space.

(** The count that [draw] passes to [gl.drawArrays] (lines 406-410): the
    vertex shader runs on the vertex numbers below it. *)
Definition vertexCount (s : Space num) : Z :=
  4 * (gridWidth s - 1) * (gridHeight s - 1).

(** The vertices of a frame: [draw] fills the buffer, uploads it as the
    texture and runs [main] on every vertex number. *)
Definition frameVertices (s : Space num) (gridSpacing : num)
  : list (VertexOut num) :=
  let s := draw s gridSpacing in
  map (main (gridWidth s) (gridHeight s) (data s) (isoLevel s))
      (range (vertexCount s)).

(** What [onClick] leaves behind, however it ends. *)
Definition afterCall (c : Completion num) : Space num :=
  match c with Normal s | TypeError s => s end.

(** The dragged index is [-1] or the index of a metaball. *)
Definition validDrag (s : Space num) : Prop :=
  draggedMetaballIndex s = -1
  \/ 0 <= draggedMetaballIndex s < Z.of_nat (length (metaballs s)).
End Surroundings.

Arguments Randoms : clear implicits.

(** Ten sets of random results, and two metaballs to pick from. *)
Definition someRandoms : list (Randoms R) :=
  repeat {| uRadius := 1 / 2; uX := 1 / 4; uY := 3 / 4; uSignX := 1 / 10;
            uSpeedX := 9 / 10; uSignY := 6 / 10; uSpeedY := 0 |}%R 10.


Definition nearBall : Metaball R :=
  {| x := 30; y := 40; xvel := 1; yvel := 2; radius := 10 |}%R.
Definition farBall : Metaball R :=
  {| x := 80; y := 80; xvel := -1; yvel := 1; radius := 10 |}%R.

(** * Properties *)

Unset Implicit Arguments.

(** ** [step] touches positions and velocities only *)

Section StepFrame.
Context {num : Type} `{Num num}.

Lemma stepBall_radius (s : Space num) (i : Z) (ball : Metaball num) :
  radius (stepBall s i ball) = radius ball.
Proof.
  unfold stepBall, reflectBall, moveBall.
  repeat match goal with
         | |- context [if ?c then _ else _] => destruct c
         end; reflexivity.
Qed.

Lemma stepFrom_length (s : Space num) (balls : list (Metaball num)) :
  forall i, length (stepFrom s i balls) = length balls.
Proof.
  induction balls as [|ball rest IH]; intros i; simpl.
  - reflexivity.
  - now rewrite IH.
Qed.

Lemma stepFrom_radius (s : Space num) (balls : list (Metaball num)) :
  forall i, map radius (stepFrom s i balls) = map radius balls.
Proof.
  induction balls as [|ball rest IH]; intros i; simpl.
  - reflexivity.
  - now rewrite stepBall_radius, IH.
Qed.

(** The ball at position [k] after the loop is the loop body run on the
    ball at position [k] before it. *)
Lemma stepFrom_nth_error (s : Space num) (balls : list (Metaball num)) :
  forall i k,
    nth_error (stepFrom s i balls) k
    = option_map (stepBall s (i + Z.of_nat k)) (nth_error balls k).
Proof.
  induction balls as [|ball rest IH]; intros i k.
  - now destruct k.
  - destruct k as [|k]; simpl.
    + now rewrite Z.add_0_r.
    + rewrite IH. do 2 f_equal. lia.
Qed.

Lemma step_nth_error (s : Space num) (k : nat) :
  nth_error (metaballs (step s)) k
  = option_map (stepBall s (Z.of_nat k)) (nth_error (metaballs s) k).
Proof. unfold step; simpl. now rewrite stepFrom_nth_error. Qed.

(** The fields of the object that [stepBall] reads are left alone by [step]. *)
Lemma stepBall_step (s : Space num) (i : Z) (ball : Metaball num) :
  stepBall (step s) i ball = stepBall s i ball.
Proof. reflexivity. Qed.
End StepFrame.

(** C10: [step] leaves every radius, the number of metaballs, the interaction
    state (clicking flag, pointer position, dragged index) and everything else
    of the object but the positions and velocities as they were. *)
Theorem step_frame {num : Type} `{Num num} (s : Space num) :
  map radius (metaballs (step s)) = map radius (metaballs s)
  /\ length (metaballs (step s)) = length (metaballs s)
  /\ clicking (step s) = clicking s
  /\ clickX (step s) = clickX s
  /\ clickY (step s) = clickY s
  /\ draggedMetaballIndex (step s) = draggedMetaballIndex s
  /\ screenWidth (step s) = screenWidth s
  /\ screenHeight (step s) = screenHeight s
  /\ gridWidth (step s) = gridWidth s
  /\ gridHeight (step s) = gridHeight s
  /\ isoLevel (step s) = isoLevel s
  /\ data (step s) = data s.
Proof.
  unfold step; simpl.
  rewrite stepFrom_radius, stepFrom_length.
  repeat split.
Qed.

(** ** The vertex shader against the case table *)

(** Decoding of the vertex number: vertex [4 id + 2 e + c] is endpoint [c]
    of slot [e] of cell [id]. *)
Lemma decode_vertex (id : Z) (e c : bool) :
  0 <= id ->
  let v := 4 * id + 2 * Z.b2z e + Z.b2z c in
  Z.quot v 4 = id /\ Z.quot (Z.rem v 4) 2 = Z.b2z e /\ Z.rem v 2 = Z.b2z c.
Proof.
  intros Hid v; subst v.
  destruct e, c; simpl Z.b2z; repeat split;
    Z.to_euclidean_division_equations; lia.
Qed.

Section CaseTable.
Context {num : Type} `{Num num}.

Lemma squareIndex_cases (iso : num) (cs : list (vec3 num)) :
  In (squareIndex iso cs) (range 16).
Proof.
  unfold squareIndex.
  repeat match goal with
         | |- context [if ?c then _ else _] => destruct c
         end; simpl; tauto.
Qed.

(** Bit [i] of the case signature tells whether corner [i] is above the iso
    level. *)
Lemma squareIndex_bits (iso : num) (c0 c1 c2 c3 : vec3 num) :
  map (Z.testbit (squareIndex iso [c0; c1; c2; c3])) [0; 1; 2; 3]
  = map (fun v => gtb (z v) iso) [c0; c1; c2; c3].
Proof.
  unfold squareIndex.
  change (at_ [c0; c1; c2; c3] 0 vec3_0) with c0.
  change (at_ [c0; c1; c2; c3] 1 vec3_0) with c1.
  change (at_ [c0; c1; c2; c3] 2 vec3_0) with c2.
  change (at_ [c0; c1; c2; c3] 3 vec3_0) with c3.
  cbn [map].
  destruct (gtb (z c0) iso), (gtb (z c1) iso), (gtb (z c2) iso),
           (gtb (z c3) iso); reflexivity.
Qed.

Lemma table_is_specTable (case : Z) :
  In case (range 16) ->
  forall slot, In slot (range 4) ->
    at_ marchingSquaresTable (4 * case + slot) 0 = specEntry case slot.
Proof.
  intros Hc slot Hs. simpl in Hc, Hs.
  repeat (destruct Hc as [<- | Hc]; [
    repeat (destruct Hs as [<- | Hs]; [reflexivity|]); contradiction |]).
  contradiction.
Qed.

End CaseTable.

Section Mesher.
Context {num : Type} `{Num num}.
Variables (gw gh : Z) (tex : list num) (iso : num).

(** [main] on endpoint [c] of slot [e] of cell [id], read off the table of
    the specification. *)
Lemma main_follows_table (id : Z) (e c : bool) :
  0 <= id ->
  main gw gh tex iso (4 * id + 2 * Z.b2z e + Z.b2z c)
  = let edge := specEntry (cellCase gw gh tex iso id) (2 * Z.b2z e + Z.b2z c) in
    if edge =? -1 then {| render := false; gl_Position := None |}
    else {| render := true;
            gl_Position :=
              Some (vertexInterp iso
                      (at_ (cellCorners gw gh tex id) (at_ edgeCornersA edge 0) vec3_0)
                      (at_ (cellCorners gw gh tex id) (at_ edgeCornersB edge 0) vec3_0),
                    ofZ 0, ofZ 1) |}.
Proof.
  intros Hid.
  destruct (decode_vertex id e c Hid) as (Hq & He & Hc).
  unfold main. rewrite Hq, He, Hc.
  change (corners gw gh tex (Z.quot id (gh - 1)) (Z.rem id (gh - 1)))
    with (cellCorners gw gh tex id).
  change (squareIndex iso (cellCorners gw gh tex id)) with (cellCase gw gh tex iso id).
  rewrite <- Z.add_assoc.
  rewrite table_is_specTable.
  - reflexivity.
  - apply squareIndex_cases.
  - destruct e, c; simpl; tauto.
Qed.

Lemma lineDrawn_slot (id : Z) (e : bool) :
  0 <= id ->
  lineDrawn gw gh tex iso (2 * id + Z.b2z e)
  = negb (specEntry (cellCase gw gh tex iso id) (2 * Z.b2z e) =? -1)
    && negb (specEntry (cellCase gw gh tex iso id) (2 * Z.b2z e + 1) =? -1).
Proof.
  intros Hid. unfold lineDrawn.
  replace (2 * (2 * id + Z.b2z e)) with (4 * id + 2 * Z.b2z e + Z.b2z false)
    by (cbn [Z.b2z]; lia).
  replace (4 * id + 2 * Z.b2z e + Z.b2z false + 1)
    with (4 * id + 2 * Z.b2z e + Z.b2z true) by (cbn [Z.b2z]; lia).
  rewrite !main_follows_table by assumption.
  simpl Z.b2z. rewrite Z.add_0_r.
  cbv zeta.
  destruct (specEntry (cellCase gw gh tex iso id) (2 * Z.b2z e) =? -1),
           (specEntry (cellCase gw gh tex iso id) (2 * Z.b2z e + 1) =? -1); reflexivity.
Qed.

Lemma cellSegments_count (id : Z) :
  0 <= id ->
  length (cellSegments gw gh tex iso id) = length (specPairs (cellCase gw gh tex iso id)).
Proof.
  intros Hid. unfold cellSegments.
  replace (2 * id) with (2 * id + Z.b2z false) at 1 by (cbn [Z.b2z]; lia).
  replace (2 * id + 1) with (2 * id + Z.b2z true) by (cbn [Z.b2z]; lia).
  cbn [filter]. rewrite !lineDrawn_slot by assumption.
  pose proof (squareIndex_cases iso (cellCorners gw gh tex id)) as Hc.
  change (squareIndex iso (cellCorners gw gh tex id))
    with (cellCase gw gh tex iso id) in Hc.
  simpl in Hc.
  repeat (destruct Hc as [<- | Hc]; [reflexivity|]).
  contradiction.
Qed.
End Mesher.


(** C1: for the cell [id] of any grid, with case signature [case] (a number
    from 0 to 15 whose bit [i] is set exactly when the sample at corner [i] is
    above the iso level), the lines the mesher draws for
    the cell are as many as the edge pairs in use in row [case] of the
    specification's table: none for the cases 0 and 15, two for the saddle
    cases 5 and 10 (the pairs 0-3, 1-2 and 0-1, 2-3, as the table has them),
    one otherwise; each endpoint is the interpolation along the edge the table
    names.  Every signature from 0 to 15 is the case of some cell. *)
Theorem case_table_segments {num : Type} `{Num num}
    (gw gh : Z) (tex : list num) (iso : num) (id : nat) :
  let case := cellCase gw gh tex iso (Z.of_nat id) in
  let drawn := cellSegments gw gh tex iso (Z.of_nat id) in
  0 <= case <= 15
  /\ map (Z.testbit case) [0; 1; 2; 3]
     = map (fun v => gtb (z v) iso) (cellCorners gw gh tex (Z.of_nat id))
  /\ length drawn = length (specPairs case)
  /\ length drawn
     = (if (case =? 0) || (case =? 15) then 0%nat
        else if (case =? 5) || (case =? 10) then 2%nat else 1%nat)
  /\ specPairs 5 = [(0, 3); (1, 2)]
  /\ specPairs 10 = [(0, 1); (2, 3)]
  /\ (forall e c : bool,
        main gw gh tex iso (4 * Z.of_nat id + 2 * Z.b2z e + Z.b2z c)
        = let edge := specEntry case (2 * Z.b2z e + Z.b2z c) in
          let cs := cellCorners gw gh tex (Z.of_nat id) in
          if edge =? -1 then {| render := false; gl_Position := None |}
          else {| render := true;
                  gl_Position :=
                    Some (vertexInterp iso
                            (at_ cs (at_ edgeCornersA edge 0) vec3_0)
                            (at_ cs (at_ edgeCornersB edge 0) vec3_0),
                          ofZ 0, ofZ 1) |})
  /\ forallb (fun s => @cellCase _ F32 2 2 (@signatureCell _ F32 s)
                                 (@ofZ _ F32 1) 0 =? s)
             (range 16) = true.
Proof.
  intros case drawn.
  assert (Hid : 0 <= Z.of_nat id) by lia.
  assert (Hcase : In case (range 16)) by apply squareIndex_cases.
  assert (Hlen : length drawn = length (specPairs case))
    by (apply cellSegments_count; assumption).
  repeat apply conj.
  - simpl in Hcase. intuition lia.
  - simpl in Hcase. intuition lia.
  - apply squareIndex_bits.
  - exact Hlen.
  - rewrite Hlen. simpl in Hcase.
    repeat (destruct Hcase as [<- | Hcase]; [reflexivity|]). contradiction.
  - reflexivity.
  - reflexivity.
  - intros e c. apply main_follows_table. assumption.
  - vm_compute. reflexivity.
Qed.

(** ** Interpolation along a cell edge *)

(** C4: the crossing point on an edge from [p1] (value [f1]) to [p2] (value
    [f2]) is [p1 + t * (p2 - p1)] with [t = (iso - f1) / (f2 - f1)]; for the
    values 0.5 and 1.5 at (0,0) and (1,0) and the level 1.0 it is (0.5, 0),
    in exact arithmetic and, bit for bit, in binary32 and binary64
    (0.5 is 2^23 * 2^-24, and 2^52 * 2^-53). *)
Theorem vertexInterp_crossing :
  (forall (num : Type) (N : Num num) (iso f1 f2 : num) (p1 p2 : vec2 num),
      vertexInterp iso (Vec3 p1 f1) (Vec3 p2 f2)
      = let t := div (sub iso f1) (sub f2 f1) in
        (add (fst p1) (mul t (sub (fst p2) (fst p1))),
         add (snd p1) (mul t (sub (snd p2) (snd p1)))))
  /\ (vertexInterp 1 (Vec3 (0, 0) (1 / 2)) (Vec3 (1, 0) (3 / 2))
      = (1 / 2, 0))%R
  /\ Binary32.crossingExample = (S754_finite false 8388608 (-24), S754_zero false)
  /\ Binary64.crossingExampleDouble
     = (S754_finite false 4503599627370496 (-53), S754_zero false).
Proof.
  split; [|split; [|split]].
  - intros. reflexivity.
  - unfold vertexInterp, vadd, vscale, vsub; simpl. f_equal; field.
  - vm_compute. reflexivity.
  - vm_compute. reflexivity.
Qed.

(** ** The walls, in exact arithmetic *)

Lemma Rltb_true (a b : R) : Rltb a b = true <-> (a < b)%R.
Proof. unfold Rltb. destruct (Rlt_dec a b); intuition congruence. Qed.

Lemma Rltb_false (a b : R) : Rltb a b = false <-> (b <= a)%R.
Proof. unfold Rltb. destruct (Rlt_dec a b); intuition (congruence || lra). Qed.

Ltac simpl_ball :=
  cbn [x y xvel yvel radius set_x set_y set_xvel set_yvel
       add sub mul div neg decimal ltb ofZ RNum orb] in *.

(** Splits on the comparisons of the goal, innermost first, leaving the
    outcome of each as a hypothesis. *)
Ltac split_tests :=
  simpl_ball;
  repeat (match goal with
          | |- context [Rltb ?a ?b] =>
              lazymatch a with context [Rltb _ _] => fail | _ => idtac end;
              lazymatch b with context [Rltb _ _] => fail | _ => idtac end;
              let E := fresh "E" in
              destruct (Rltb a b) eqn:E;
              [apply Rltb_true in E | apply Rltb_false in E]
          end; simpl_ball).

(** Unfolds [stepBall] on the concrete screens and metaballs of this file. *)
Ltac run_step :=
  cbv [arena wideBall wallBall cornerBall stepBall reflectBall moveBall gtb
       draggedMetaballIndex screenWidth screenHeight clickX clickY
       Z.eqb Z.of_nat Pos.eqb];
  simpl_ball.

Lemma step_ball (s : Space R) (k : nat) (ball : Metaball R) :
  nth_error (metaballs s) k = Some ball ->
  nth_error (metaballs (step s)) k = Some (stepBall s (Z.of_nat k) ball).
Proof. intros Hk. now rewrite step_nth_error, Hk. Qed.

(** After the wall tests a metaball that fits the screen is within bounds. *)
Lemma reflectBall_inBounds (s : Space R) (ball : Metaball R) :
  fitsScreen s ball -> inBounds s (reflectBall s ball).
Proof.
  unfold fitsScreen, inBounds. intros [Hw Hh].
  unfold reflectBall, gtb. split_tests; lra.
Qed.

Lemma moveBall_radius (s : Space R) (i : Z) (ball : Metaball R) :
  radius (moveBall s i ball) = radius ball.
Proof. unfold moveBall. now destruct (_ =? _). Qed.

Lemma stepBall_inBounds (s : Space R) (i : Z) (ball : Metaball R) :
  fitsScreen s ball -> inBounds s (stepBall s i ball).
Proof.
  intros Hfit. apply reflectBall_inBounds.
  unfold fitsScreen in *. now rewrite moveBall_radius.
Qed.

Lemma stepFrom_inBounds (s : Space R) (balls : list (Metaball R)) :
  forall i, Forall (fitsScreen s) balls -> Forall (inBounds s) (stepFrom s i balls).
Proof.
  induction balls as [|ball rest IH]; intros i Hfit; simpl.
  - constructor.
  - inversion Hfit; subst. constructor.
    + now apply stepBall_inBounds.
    + now apply IH.
Qed.

Lemma stepFrom_fitsScreen (s : Space R) (balls : list (Metaball R)) :
  forall i, Forall (fitsScreen s) balls -> Forall (fitsScreen s) (stepFrom s i balls).
Proof.
  induction balls as [|ball rest IH]; intros i Hfit; simpl.
  - constructor.
  - inversion Hfit; subst. constructor.
    + unfold fitsScreen in *. now rewrite stepBall_radius.
    + now apply IH.
Qed.

Lemma steps_fitsScreen (n : nat) :
  forall s : Space R,
    Forall (fitsScreen s) (metaballs s) ->
    Forall (fitsScreen s) (metaballs (steps n s))
    /\ screenWidth (steps n s) = screenWidth s
    /\ screenHeight (steps n s) = screenHeight s.
Proof.
  induction n as [|n IH]; intros s Hfit; simpl.
  - auto.
  - destruct (IH (step s)) as (Hf & Hw & Hh).
    + change (Forall (fitsScreen s) (stepFrom s 0 (metaballs s))).
      now apply stepFrom_fitsScreen.
    + exact (conj Hf (conj Hw Hh)).
Qed.

Lemma steps_S (n : nat) : forall s : Space R, steps (S n) s = step (steps n s).
Proof.
  induction n as [|n IH]; intros s.
  - reflexivity.
  - change (steps (S (S n)) s) with (steps (S n) (step s)). now rewrite IH.
Qed.

(** The wall tests handle the two axes apart from each other: on a metaball
    that fits the screen, the velocity of an axis is negated exactly when the
    centre is out of range on that axis, whatever happens on the other. *)
Lemma reflectBall_per_axis (s : Space R) (ball : Metaball R) :
  fitsScreen s ball ->
  xvel (reflectBall s ball)
  = (if Rltb (x ball) (radius ball)
        || Rltb (screenWidth s - radius ball) (x ball)
     then - xvel ball else xvel ball)%R
  /\ yvel (reflectBall s ball)
     = (if Rltb (y ball) (radius ball)
           || Rltb (screenHeight s - radius ball) (y ball)
        then - yvel ball else yvel ball)%R.
Proof.
  unfold fitsScreen. intros [Hw Hh].
  unfold reflectBall, gtb.
  split_tests; first [exfalso; lra | split; reflexivity].
Qed.

(** One metaball that fits the screen, whatever the others are: it is
    within bounds after every tick. *)
Lemma steps_ball_inBounds (n : nat) :
  forall (s : Space R) (k : nat) (ball : Metaball R),
    nth_error (metaballs s) k = Some ball ->
    fitsScreen s ball ->
    exists ball',
      nth_error (metaballs (steps (S n) s)) k = Some ball'
      /\ radius ball' = radius ball
      /\ inBounds s ball'.
Proof.
  induction n as [|n IH]; intros s k ball Hk Hfit.
  - exists (stepBall s (Z.of_nat k) ball). split; [|split].
    + now apply step_ball.
    + apply stepBall_radius.
    + now apply stepBall_inBounds.
  - destruct (IH (step s) k (stepBall s (Z.of_nat k) ball))
      as (ball' & Hk' & Hr & Hin).
    + now apply step_ball.
    + unfold fitsScreen in *. rewrite stepBall_radius. exact Hfit.
    + exists ball'. split; [exact Hk'|split].
      * now rewrite Hr, stepBall_radius.
      * exact Hin.
Qed.

(** C3, as amended: a metaball that is not wider or higher than the screen,
    whatever the other metaballs are, has its centre in
    [radius, screenWidth - radius] x [radius, screenHeight - radius] after
    any number (at least one) of calls of [step], from any position and
    velocity and whether it is dragged or not; and in a tick each axis is
    reflected on its own, so that a metaball out of range on both axes (a
    corner) has both velocities negated in that tick. *)
Theorem step_keeps_in_bounds (s : Space R) (n k : nat) (ball : Metaball R) :
  nth_error (metaballs s) k = Some ball ->
  fitsScreen s ball ->
  (exists ball',
      nth_error (metaballs (steps (S n) s)) k = Some ball'
      /\ radius ball' = radius ball
      /\ inBounds s ball')
  /\ let moved := moveBall s (Z.of_nat k) ball in
     let ball1 := stepBall s (Z.of_nat k) ball in
     nth_error (metaballs (step s)) k = Some ball1
     /\ xvel ball1
        = (if Rltb (x moved) (radius ball)
              || Rltb (screenWidth s - radius ball) (x moved)
           then - xvel moved else xvel moved)%R
     /\ yvel ball1
        = (if Rltb (y moved) (radius ball)
              || Rltb (screenHeight s - radius ball) (y moved)
           then - yvel moved else yvel moved)%R.
Proof.
  intros Hk Hfit. split.
  - now apply steps_ball_inBounds.
  - intros moved ball1. split.
    + now apply step_ball.
    + assert (Hb : fitsScreen s moved).
      { unfold fitsScreen, moved. rewrite moveBall_radius. exact Hfit. }
      destruct (reflectBall_per_axis s moved Hb) as [Hx Hy].
      unfold moved in Hx, Hy. rewrite moveBall_radius in Hx, Hy.
      split; assumption.
Qed.

(** The metaball in the corner of the 100 x 100 screen, beside one that is
    wider than the screen, three ticks on. *)
Lemma step_keeps_in_bounds_witness :
  let s := arena [wideBall; cornerBall] 0 0 (-1) in
  fitsScreen s cornerBall
  /\ exists ball',
       nth_error (metaballs (steps 3 s)) 1 = Some ball'
       /\ radius ball' = radius cornerBall
       /\ inBounds s ball'.
Proof.
  intros s.
  assert (Hfit : fitsScreen s cornerBall) by (unfold fitsScreen; simpl; lra).
  split; [exact Hfit|].
  exact (proj1 (step_keeps_in_bounds s 2 1 cornerBall eq_refl Hfit)).
Defined.

(** C3 as it is worded fails for a metaball wider than the screen: with radius
    60 on a screen 100 wide, one call of [step] leaves the centre at x = 40,
    left of [radius] (and no x at all lies in [60, 40]). *)
Lemma wide_ball_leaves_bounds :
  let s := arena [wideBall] 0 0 (-1) in
  exists ball,
    metaballs (steps 1 s) = [ball]
    /\ (0 < radius ball)%R
    /\ x ball = 40%R
    /\ radius ball = 60%R
    /\ ~ inBounds s ball.
Proof.
  intros s. exists (stepBall s 0 wideBall). subst s.
  split; [reflexivity|].
  assert (Hx : x (stepBall (arena [wideBall] 0 0 (-1)) 0 wideBall) = 40%R).
  { run_step. split_tests; lra. }
  assert (Hr : radius (stepBall (arena [wideBall] 0 0 (-1)) 0 wideBall) = 60%R)
    by (rewrite stepBall_radius; reflexivity).
  repeat split; try assumption.
  - rewrite Hr. lra.
  - unfold inBounds. rewrite Hx, Hr. simpl. lra.
Qed.

(** ** A metaball that is not dragged *)

(** C6, as amended: for a metaball that is not dragged, [step] first adds the
    velocity to the position and then, on each axis, applies the wall rule of
    the specification (clamp to the radius and negate when position - radius
    is negative, then clamp to extent - radius and negate when position +
    radius exceeds the extent); the radius stays.  A metaball at x = radius
    with a negative [xvel] ends the tick at x = radius with [xvel] negated,
    provided it is not wider than the screen. *)
Theorem step_free_ball (s : Space R) (k : nat) (ball : Metaball R) :
  nth_error (metaballs s) k = Some ball ->
  draggedMetaballIndex s <> Z.of_nat k ->
  exists ball',
    nth_error (metaballs (step s)) k = Some ball'
    /\ (x ball', xvel ball')
       = specReflectAxis (x ball + xvel ball) (xvel ball) (radius ball) (screenWidth s)
    /\ (y ball', yvel ball')
       = specReflectAxis (y ball + yvel ball) (yvel ball) (radius ball) (screenHeight s)
    /\ radius ball' = radius ball
    /\ (x ball = radius ball -> (xvel ball < 0)%R ->
        (2 * radius ball <= screenWidth s)%R ->
        x ball' = radius ball /\ xvel ball' = (- xvel ball)%R).
Proof.
  intros Hk Hdrag.
  exists (stepBall s (Z.of_nat k) ball).
  split; [now apply step_ball|].
  apply Z.eqb_neq in Hdrag.
  unfold stepBall, moveBall. rewrite Hdrag.
  unfold reflectBall, gtb, specReflectAxis.
  split; [|split; [|split; [|intros Hx Hv Hw]]].
  - split_tests; first [exfalso; lra | f_equal; lra].
  - split_tests; first [exfalso; lra | f_equal; lra].
  - split_tests; reflexivity.
  - split_tests; first [exfalso; lra | split; lra].
Qed.

(** The metaball at the left wall of the 100 x 100 screen, not dragged. *)
Lemma step_free_ball_witness :
  let s := arena [wallBall] 0 0 (-1) in
  exists ball',
    nth_error (metaballs (step s)) 0 = Some ball'
    /\ (x ball', xvel ball') = specReflectAxis (10 + -1) (-1) 10 100
    /\ (y ball', yvel ball') = specReflectAxis (50 + 0) 0 10 100
    /\ radius ball' = 10%R
    /\ (10%R = 10%R -> (-1 < 0)%R -> (2 * 10 <= 100)%R ->
        x ball' = 10%R /\ xvel ball' = (- -1)%R).
Proof.
  intros s.
  apply (step_free_ball s 0 wallBall).
  - reflexivity.
  - simpl. lia.
Defined.

(** C6 as it is worded fails for a metaball wider than the screen: with radius
    60 on a screen 100 wide, the metaball at x = radius = 60 with [xvel = -1]
    is clamped to 60 and then to 100 - 60 = 40, its velocity negated twice. *)
Lemma wide_ball_reflects_twice :
  let s := arena [wideBall] 0 0 (-1) in
  x wideBall = radius wideBall
  /\ (xvel wideBall < 0)%R
  /\ draggedMetaballIndex s <> 0
  /\ exists ball',
       metaballs (step s) = [ball']
       /\ x ball' = 40%R
       /\ xvel ball' = (-1)%R
       /\ ~ (x ball' = radius wideBall /\ xvel ball' = (- xvel wideBall)%R).
Proof.
  intros s. subst s.
  split; [reflexivity|split; [simpl; lra|split; [simpl; lia|]]].
  exists (stepBall (arena [wideBall] 0 0 (-1)) 0 wideBall).
  split; [reflexivity|].
  assert (Hx : x (stepBall (arena [wideBall] 0 0 (-1)) 0 wideBall) = 40%R).
  { run_step. split_tests; lra. }
  assert (Hv : xvel (stepBall (arena [wideBall] 0 0 (-1)) 0 wideBall) = (-1)%R).
  { run_step. split_tests; lra. }
  repeat split; try assumption.
  rewrite Hx, Hv. simpl. lra.
Qed.

(** ** The dragged metaball *)

Lemma distance_scaled (c dx dy : R) :
  (0 <= c)%R ->
  R_sqrt.sqrt ((c * dx) * (c * dx) + (c * dy) * (c * dy))
  = (c * R_sqrt.sqrt (dx * dx + dy * dy))%R.
Proof.
  intros Hc.
  replace ((c * dx) * (c * dx) + (c * dy) * (c * dy))%R
    with ((c * c) * (dx * dx + dy * dy))%R by ring.
  rewrite sqrt_mult by nra.
  now rewrite sqrt_square.
Qed.

(** The dragged metaball whose new position is within bounds passes the wall
    tests untouched. *)
Lemma stepBall_dragged_free (s : Space R) (i : Z) (ball : Metaball R) :
  draggedMetaballIndex s = i ->
  let newX := (1 / 10 * clickX s + 9 / 10 * x ball)%R in
  let newY := (1 / 10 * clickY s + 9 / 10 * y ball)%R in
  (radius ball <= newX <= screenWidth s - radius ball)%R ->
  (radius ball <= newY <= screenHeight s - radius ball)%R ->
  stepBall s i ball
  = {| x := newX; y := newY; xvel := (newX - x ball)%R;
       yvel := (newY - y ball)%R; radius := radius ball |}.
Proof.
  intros Hdrag newX newY Hx Hy. subst newX newY.
  apply Z.eqb_eq in Hdrag.
  unfold stepBall, moveBall. rewrite Hdrag.
  unfold reflectBall, gtb. split_tests; first [exfalso; lra | reflexivity].
Qed.

Lemma distance_after_drag (px py : R) (ball : Metaball R) :
  let newX := (1 / 10 * px + 9 / 10 * x ball)%R in
  let newY := (1 / 10 * py + 9 / 10 * y ball)%R in
  R_sqrt.sqrt ((newX - px) * (newX - px) + (newY - py) * (newY - py))
  = (9 / 10 * distanceTo ball px py)%R.
Proof.
  intros newX newY. unfold distanceTo.
  rewrite <- distance_scaled by lra.
  f_equal. unfold newX, newY. field.
Qed.

(** C5, as amended: for the dragged metaball, [step] takes as new position
    0.1 * pointer + 0.9 * position and as velocity the new position minus the
    old one, and only then tests the walls.  When that new position is within
    bounds (so that no wall test fires) it is the position after the tick,
    and the distance to the pointer is 0.9 times what it was. *)
Theorem step_dragged_ball (s : Space R) (k : nat) (ball : Metaball R) :
  nth_error (metaballs s) k = Some ball ->
  draggedMetaballIndex s = Z.of_nat k ->
  let newX := (1 / 10 * clickX s + 9 / 10 * x ball)%R in
  let newY := (1 / 10 * clickY s + 9 / 10 * y ball)%R in
  let moved := moveBall s (Z.of_nat k) ball in
  exists ball',
    nth_error (metaballs (step s)) k = Some ball'
    /\ ball' = reflectBall s moved
    /\ x moved = newX /\ y moved = newY
    /\ xvel moved = (newX - x ball)%R /\ yvel moved = (newY - y ball)%R
    /\ radius moved = radius ball
    /\ ((radius ball <= newX <= screenWidth s - radius ball)%R ->
        (radius ball <= newY <= screenHeight s - radius ball)%R ->
        ball' = moved
        /\ distanceTo ball' (clickX s) (clickY s)
           = (9 / 10 * distanceTo ball (clickX s) (clickY s))%R).
Proof.
  intros Hk Hdrag newX newY moved.
  exists (stepBall s (Z.of_nat k) ball).
  split; [now apply step_ball|].
  split; [reflexivity|].
  assert (Hm : moved
               = {| x := newX; y := newY; xvel := (newX - x ball)%R;
                    yvel := (newY - y ball)%R; radius := radius ball |}).
  { unfold moved, moveBall.
    apply Z.eqb_eq in Hdrag. rewrite Hdrag. reflexivity. }
  rewrite Hm. cbn [x y xvel yvel radius].
  repeat (split; [reflexivity|]).
  intros Hx Hy.
  rewrite (stepBall_dragged_free s (Z.of_nat k) ball Hdrag Hx Hy).
  split; [reflexivity|].
  apply distance_after_drag.
Qed.

(** The metaball at the left wall dragged towards a pointer at (90, 50). *)
Lemma step_dragged_ball_witness :
  let s := arena [wallBall] 90 50 0 in
  exists ball',
    nth_error (metaballs (step s)) 0 = Some ball'
    /\ ball' = reflectBall s (moveBall s 0 wallBall)
    /\ x (moveBall s 0 wallBall) = (1 / 10 * 90 + 9 / 10 * 10)%R
    /\ y (moveBall s 0 wallBall) = (1 / 10 * 50 + 9 / 10 * 50)%R
    /\ xvel (moveBall s 0 wallBall) = (1 / 10 * 90 + 9 / 10 * 10 - 10)%R
    /\ yvel (moveBall s 0 wallBall) = (1 / 10 * 50 + 9 / 10 * 50 - 50)%R
    /\ radius (moveBall s 0 wallBall) = 10%R
    /\ ((10 <= 1 / 10 * 90 + 9 / 10 * 10 <= 100 - 10)%R ->
        (10 <= 1 / 10 * 50 + 9 / 10 * 50 <= 100 - 10)%R ->
        ball' = moveBall s 0 wallBall
        /\ distanceTo ball' 90 50 = (9 / 10 * distanceTo wallBall 90 50)%R).
Proof.
  intros s.
  apply (step_dragged_ball s 0 wallBall).
  - reflexivity.
  - reflexivity.
Defined.

(** C5 as it is worded fails when the walls hold the metaball back: dragged
    towards a pointer at (0, 50), the metaball of radius 10 at (10, 50) is
    put back at x = 10 by the left wall, and its distance to the pointer is
    10 after the tick as before it, not 9. *)
Lemma drag_held_by_wall :
  let s := arena [wallBall] 0 50 0 in
  exists ball',
    metaballs (step s) = [ball']
    /\ x ball' = 10%R /\ y ball' = 50%R
    /\ distanceTo wallBall 0 50 = 10%R
    /\ distanceTo ball' 0 50 = 10%R
    /\ distanceTo ball' 0 50 <> (9 / 10 * distanceTo wallBall 0 50)%R.
Proof.
  intros s. subst s.
  exists (stepBall (arena [wallBall] 0 50 0) 0 wallBall).
  split; [reflexivity|].
  assert (Hx : x (stepBall (arena [wallBall] 0 50 0) 0 wallBall) = 10%R).
  { run_step. split_tests; lra. }
  assert (Hy : y (stepBall (arena [wallBall] 0 50 0) 0 wallBall) = 50%R).
  { run_step. split_tests; lra. }
  assert (Hd : R_sqrt.sqrt ((10 - 0) * (10 - 0) + (50 - 50) * (50 - 50)) = 10%R).
  { replace ((10 - 0) * (10 - 0) + (50 - 50) * (50 - 50))%R with (10 * 10)%R
      by ring.
    apply sqrt_square. lra. }
  unfold distanceTo. rewrite Hx, Hy. cbn [x y wallBall].
  rewrite Hd. repeat split; lra.
Qed.

(** X4: Over any number of ticks: with the pointer held at a place the centre
    can reach and the metaball within bounds, no wall test ever fires and the
    distance to the pointer after [n] ticks is 0.9 ^ n times the first one. *)
Lemma drag_converges (n : nat) :
  forall (s : Space R) (k : nat) (ball : Metaball R),
    nth_error (metaballs s) k = Some ball ->
    draggedMetaballIndex s = Z.of_nat k ->
    inBounds s ball ->
    (radius ball <= clickX s <= screenWidth s - radius ball)%R ->
    (radius ball <= clickY s <= screenHeight s - radius ball)%R ->
    exists ball',
      nth_error (metaballs (steps n s)) k = Some ball'
      /\ radius ball' = radius ball
      /\ inBounds s ball'
      /\ distanceTo ball' (clickX s) (clickY s)
         = ((9 / 10) ^ n * distanceTo ball (clickX s) (clickY s))%R.
Proof.
  induction n as [|n IH]; intros s k ball Hk Hdrag Hin Hpx Hpy.
  - exists ball. simpl. repeat split; try assumption; try apply Hin. lra.
  - destruct Hin as [Hbx Hby].
    assert (Hx : (radius ball <= 1 / 10 * clickX s + 9 / 10 * x ball
                  <= screenWidth s - radius ball)%R) by lra.
    assert (Hy : (radius ball <= 1 / 10 * clickY s + 9 / 10 * y ball
                  <= screenHeight s - radius ball)%R) by lra.
    pose proof (stepBall_dragged_free s (Z.of_nat k) ball Hdrag Hx Hy) as Hstep.
    pose proof (step_ball s k ball Hk) as Hk'. rewrite Hstep in Hk'.
    destruct (IH (step s) k _ Hk' Hdrag) as (ball' & Hn & Hr & Hb & Hd).
    + split; assumption.
    + exact Hpx.
    + exact Hpy.
    + exists ball'. split; [exact Hn|split; [exact Hr|split; [exact Hb|]]].
      change (clickX (step s)) with (clickX s) in Hd.
      change (clickY (step s)) with (clickY s) in Hd.
      rewrite Hd. unfold distanceTo at 1. cbn [x y].
      rewrite distance_after_drag. simpl. lra.
Qed.

(** ** The field sampler *)

Section Buffer.
Context {num : Type} `{Num num}.

Lemma update_length (l : list num) :
  forall i v, length (update l i v) = length l.
Proof.
  induction l as [|h rest IH]; intros [|i] v; simpl; auto.
Qed.

Lemma store_length (l : list num) (i : Z) (v : num) :
  length (store l i v) = length l.
Proof. unfold store. destruct (i <? 0); auto using update_length. Qed.

Lemma update_nth_same (d : num) (l : list num) :
  forall i v, (i < length l)%nat -> nth i (update l i v) d = v.
Proof.
  induction l as [|h rest IH]; intros [|i] v Hi; simpl in *; try lia; auto.
  apply IH. lia.
Qed.

Lemma update_nth_other (d : num) (l : list num) :
  forall i j v, i <> j -> nth j (update l i v) d = nth j l d.
Proof.
  induction l as [|h rest IH]; intros [|i] [|j] v Hij; simpl; auto; try lia.
Qed.

Lemma store_at_same (d : num) (l : list num) (i : Z) (v : num) :
  0 <= i < Z.of_nat (length l) -> at_ (store l i v) i d = v.
Proof.
  intros Hi. unfold at_, store.
  destruct (i <? 0) eqn:E; [apply Z.ltb_lt in E; lia|].
  apply update_nth_same. lia.
Qed.

Lemma store_at_other (d : num) (l : list num) (i j : Z) (v : num) :
  0 <= j -> i <> j -> at_ (store l i v) j d = at_ l j d.
Proof.
  intros Hj Hij. unfold at_, store.
  destruct (i <? 0) eqn:E; [reflexivity|]. apply Z.ltb_ge in E.
  apply update_nth_other. lia.
Qed.

(** A run of writes: the cell [j] ends up with [v] when every write to [j]
    writes [v] and there is such a write or [v] was there before. *)
Lemma writes_at {A : Type} (idx : A -> Z) (val : A -> num) (d : num)
    (j : Z) (v : num) (ws : list A) :
  (forall a, In a ws -> idx a = j -> val a = v) ->
  forall l,
    0 <= j < Z.of_nat (length l) ->
    (exists a, In a ws /\ idx a = j) \/ at_ l j d = v ->
    at_ (fold_left (fun l a => store l (idx a) (val a)) ws l) j d = v.
Proof.
  induction ws as [|w rest IH]; intros Hval l Hj Hhit; simpl.
  - destruct Hhit as [(a & [] & _) | Hl]. exact Hl.
  - apply IH.
    + intros a Ha. apply Hval. now right.
    + now rewrite store_length.
    + destruct (Z.eq_dec (idx w) j) as [Hw | Hw].
      * right. rewrite Hw, store_at_same by assumption.
        apply Hval; [now left | assumption].
      * destruct Hhit as [(a & [-> | Ha] & Hidx) | Hl].
        -- contradiction.
        -- left. now exists a.
        -- right. rewrite store_at_other by lia. exact Hl.
Qed.

Lemma in_range (n a : Z) : In a (range n) <-> 0 <= a < n.
Proof.
  unfold range. rewrite in_map_iff. split.
  - intros (k & <- & Hk). apply in_seq in Hk. lia.
  - intros Ha. exists (Z.to_nat a). split; [lia|]. apply in_seq. lia.
Qed.

Lemma fold_left_mapped {A B C : Type} (f : C -> B -> C) (g : A -> B) (l : list A) :
  forall c, fold_left f (map g l) c = fold_left (fun c a => f c (g a)) l c.
Proof. induction l as [|a rest IH]; intros c; simpl; auto. Qed.

(** The two nested loops of [draw] as one run of writes over the grid. *)
Lemma draw_as_writes (s : Space num) (gridSpacing : num) :
  data (draw s gridSpacing)
  = fold_left
      (fun l p =>
         store l (snd p * gridWidth s + fst p)
               (fieldAt (metaballs s) (mul (ofZ (fst p)) gridSpacing)
                                      (mul (ofZ (snd p)) gridSpacing)))
      (list_prod (range (gridWidth s)) (range (gridHeight s)))
      (data s).
Proof.
  unfold draw; cbn [data set_data].
  generalize (data s) as l.
  induction (range (gridWidth s)) as [|gx rest IH]; intros l; simpl.
  - reflexivity.
  - rewrite fold_left_app, IH. f_equal.
    unfold drawColumn. now rewrite fold_left_mapped.
Qed.

(** The sample of the grid point [(gx, gy)] is at [gy * gridWidth + gx]. *)
Lemma draw_at (d : num) (s : Space num) (gridSpacing : num) (gx gy : Z) :
  Z.of_nat (length (data s)) = gridWidth s * gridHeight s ->
  0 <= gx < gridWidth s ->
  0 <= gy < gridHeight s ->
  at_ (data (draw s gridSpacing)) (gy * gridWidth s + gx) d
  = fieldAt (metaballs s) (mul (ofZ gx) gridSpacing) (mul (ofZ gy) gridSpacing).
Proof.
  intros Hlen Hx Hy. rewrite draw_as_writes.
  apply (writes_at (fun p => snd p * gridWidth s + fst p)
                   (fun p => fieldAt (metaballs s) (mul (ofZ (fst p)) gridSpacing)
                                     (mul (ofZ (snd p)) gridSpacing))).
  - intros [gx' gy'] Hin Hidx. cbn [fst snd] in *.
    apply in_prod_iff in Hin. rewrite !in_range in Hin.
    assert (gy' = gy) by nia. subst gy'.
    assert (gx' = gx) by lia. now subst gx'.
  - nia.
  - left. exists (gx, gy). split; [|reflexivity].
    apply in_prod_iff. now rewrite !in_range.
Qed.

(** In any arithmetic: metaballs that fail the cutoff test leave the sum at
    its initial 0. *)
Lemma fieldAt_cutoff (balls : list (Metaball num)) (px py : num) :
  Forall (fun ball =>
            ltb (sqrt (add (pow2 (sub px (x ball))) (pow2 (sub py (y ball)))))
                (mul (ofZ 3) (radius ball)) = false) balls ->
  fieldAt balls px py = zero.
Proof.
  intros Hfar. unfold fieldAt. generalize (@zero num _).
  induction Hfar as [|ball rest Hfar _ IH]; intros acc; simpl.
  - reflexivity.
  - unfold accumulate at 2. rewrite Hfar. apply IH.
Qed.
End Buffer.

Lemma accumulate_spec (px py sum : R) (ball : Metaball R) :
  accumulate px py sum ball = (sum + specContribution px py ball)%R.
Proof.
  unfold accumulate, specContribution, specDistance, pow2.
  cbn [add sub mul div sqrt ltb ofZ RNum].
  destruct (Rltb _ _); lra.
Qed.

Lemma fieldAt_from (px py : R) (balls : list (Metaball R)) :
  forall sum,
    fold_left (accumulate px py) balls sum = (sum + specField balls px py)%R.
Proof.
  induction balls as [|ball rest IH]; intros sum; simpl.
  - lra.
  - rewrite IH, accumulate_spec. lra.
Qed.

Lemma fieldAt_spec (px py : R) (balls : list (Metaball R)) :
  fieldAt balls px py = specField balls px py.
Proof. unfold fieldAt. rewrite fieldAt_from. unfold zero; simpl. lra. Qed.

Lemma specField_cutoff (px py : R) (balls : list (Metaball R)) :
  Forall (fun ball => (3 * radius ball <= specDistance px py ball)%R) balls ->
  specField balls px py = 0%R.
Proof.
  induction 1 as [|ball rest Hfar _ IH]; simpl.
  - reflexivity.
  - rewrite IH. unfold specContribution.
    apply Rltb_false in Hfar. rewrite Hfar. lra.
Qed.



(** ** The divisions of the sampler and of the mesher *)

(** One more metaball in the list is one more turn of the loop, whose only
    test is the cutoff. *)
Lemma fieldAt_snoc {num : Type} `{Num num}
    (balls : list (Metaball num)) (ball : Metaball num) (px py : num) :
  fieldAt (balls ++ [ball]) px py = accumulate px py (fieldAt balls px py) ball.
Proof. unfold fieldAt. now rewrite fold_left_app. Qed.

(** C8 as it is worded fails: in the scenario of the specification the grid
    point (5, 5) is the centre of the metaball; the sample stored for it is
    +Infinity, which is neither what skipping the metaball would give (0) nor
    a finite, clamped value. *)
Lemma centre_sample_is_infinite :
  Binary64.centreSample = S754_infinity false
  /\ Binary64.centreSkipped = S754_zero false
  /\ isFinite Binary64.centreSample = false.
Proof. vm_compute. repeat split. Qed.

(** C8, as amended: the sampler has no test on [dist] but the cutoff
    [dist < l]: a metaball with [dist < l] adds
    [r / dist - r * (dist - l) / (l * (l - r)) - r / l] to the sum whatever
    [dist] is, zero included.  At the centre of the metaball of the scenario,
    in binary64, [dist] is +0, [r / dist] is +Infinity and so is the sample
    stored; it is not NaN. *)
Theorem field_division_unguarded :
  (forall (num : Type) (N : Num num)
          (balls : list (Metaball num)) (ball : Metaball num) (px py : num),
      let dist := sqrt (add (pow2 (sub px (x ball))) (pow2 (sub py (y ball)))) in
      let r := radius ball in
      let l := mul (ofZ 3) r in
      fieldAt (balls ++ [ball]) px py
      = if ltb dist l
        then add (fieldAt balls px py)
                 (sub (sub (div r dist) (div (mul r (sub dist l)) (mul l (sub l r))))
                      (div r l))
        else fieldAt balls px py)
  /\ Binary64.centreDist = S754_zero false
  /\ Binary64.centreQuotient = S754_infinity false
  /\ Binary64.centreSample = S754_infinity false
  /\ isNaN Binary64.centreSample = false.
Proof.
  split.
  - intros. apply fieldAt_snoc.
  - vm_compute. repeat split.
Qed.

(** A remark on values that are not finite, in binary32.  [vertexInterp] has
    no test of its own: were it called on an edge with the value 1.0 at both
    ends (which [main] never does, see below) it would return NaN coordinates
    at level 1.0 and infinite ones at level 2.0.  And [main] lets a
    non-finite sample through: with +Infinity at corner 0, whose ends
    differ, the first vertex of the cell is rendered at NaN coordinates. *)
Lemma flat_edge_is_not_guarded :
  Binary32.flatEdgeAtLevel = (S754_nan, S754_nan)
  /\ Binary32.flatEdgeBelowLevel = (S754_infinity false, S754_nan)
  /\ render Binary32.infiniteCornerVertex = true
  /\ gl_Position Binary32.infiniteCornerVertex
     = Some ((S754_nan, S754_nan), S754_zero false, S754_finite false 8388608 (-23)).
Proof. vm_compute. repeat split. Qed.

(** C9: the division by [v2.field - v1.field] never sees two equal values.
    When the two ends of a side of a cell carry equal values, that side has
    no crossing: no vertex of the cell is interpolated along it, because the
    row of the table for the cell's case does not name it.  Every vertex is
    either discarded (its entry is [-1]) or interpolated along a side with
    one end above the iso level and the other not, whose two values
    therefore differ.  In any arithmetic; the protection is the table, the
    shader has no test on the values themselves. *)
Theorem equal_ends_never_interpolated {num : Type} `{Num num}
    (gw gh : Z) (tex : list num) (iso : num) (id : nat) (side : Z)
    (e c : bool) :
  In side (range 4) ->
  z (at_ (cellCorners gw gh tex (Z.of_nat id)) (at_ edgeCornersA side 0) vec3_0)
  = z (at_ (cellCorners gw gh tex (Z.of_nat id)) (at_ edgeCornersB side 0) vec3_0) ->
  let out := main gw gh tex iso (4 * Z.of_nat id + 2 * Z.b2z e + Z.b2z c) in
  let cs := cellCorners gw gh tex (Z.of_nat id) in
  let edge :=
    at_ marchingSquaresTable
        (4 * cellCase gw gh tex iso (Z.of_nat id) + 2 * Z.b2z e + Z.b2z c) 0 in
  let v1 := at_ cs (at_ edgeCornersA edge 0) vec3_0 in
  let v2 := at_ cs (at_ edgeCornersB edge 0) vec3_0 in
  edge <> side
  /\ if edge =? -1 then
       out = {| render := false; gl_Position := None |}
     else
       out = {| render := true;
                gl_Position := Some (vertexInterp iso v1 v2, ofZ 0, ofZ 1) |}
       /\ gtb (z v1) iso = negb (gtb (z v2) iso)
       /\ z v1 <> z v2.
Proof.
  intros Hside Hends out cs edge v1 v2.
  assert (Hid : 0 <= Z.of_nat id) by lia.
  destruct (decode_vertex (Z.of_nat id) e c Hid) as (Hq & He & Hc).
  assert (Hout : out = if edge =? -1
                       then {| render := false; gl_Position := None |}
                       else {| render := true;
                               gl_Position :=
                                 Some (vertexInterp iso v1 v2, ofZ 0, ofZ 1) |}).
  { unfold out, main. rewrite Hq, He, Hc. reflexivity. }
  rewrite Hout. clear Hout out Hq He Hc Hid.
  subst v1 v2 edge cs. revert Hends.
  unfold cellCase, cellCorners, corners.
  match goal with
  | |- context [squareIndex iso [?a; ?b; ?c; ?d]] => generalize a, b, c, d
  end.
  intros c0 c1 c2 c3 Hends.
  unfold squareIndex, gtb.
  change (at_ [c0; c1; c2; c3] 0 vec3_0) with c0.
  change (at_ [c0; c1; c2; c3] 1 vec3_0) with c1.
  change (at_ [c0; c1; c2; c3] 2 vec3_0) with c2.
  change (at_ [c0; c1; c2; c3] 3 vec3_0) with c3.
  simpl in Hside.
  destruct Hside as [<- | [<- | [<- | [<- | []]]]];
    destruct (ltb iso (z c0)) eqn:G0, (ltb iso (z c1)) eqn:G1,
             (ltb iso (z c2)) eqn:G2, (ltb iso (z c3)) eqn:G3, e, c;
    cbv in *;
    (split;
     [ intros Hn;
       first [ discriminate Hn
             | first [rewrite Hends in G0 | rewrite Hends in G1
                     | rewrite Hends in G2 | rewrite Hends in G3];
               congruence ]
     | try reflexivity;
       (split; [reflexivity|split; [now rewrite ?G0, ?G1, ?G2, ?G3|]]);
       intros Heq;
       first [rewrite Heq in G0 | rewrite Heq in G1 | rewrite Heq in G2
             | rewrite Heq in G3]; congruence ]).
Qed.

(** A cell with the same value at the corners 0 and 1, above the level, and
    lower values at the corners 2 and 3, in binary32: side 0 joins two equal
    values and carries no vertex. *)
Lemma equal_ends_never_interpolated_witness :
  at_ marchingSquaresTable
      (4 * @cellCase _ F32 2 2 (@signatureCell _ F32 3) (@ofZ _ F32 1) 0
       + 2 * Z.b2z false + Z.b2z false) 0
  <> 0.
Proof.
  refine (proj1 (@equal_ends_never_interpolated _ F32 2 2 (@signatureCell _ F32 3)
                   (@ofZ _ F32 1) 0 0 false false _ _)).
  - simpl. tauto.
  - reflexivity.
Defined.

(** ** Picking a metaball *)

(** C7, on the code: with no metaball at all, [onClick] records the press and
    then throws, reading [.distance] of the missing first element of the
    sorted array; it does not complete normally. *)
Theorem onClick_without_metaballs {num : Type} `{Num num}
    (s : Space num) (px py : num) :
  let empty := set_metaballs s [] in
  onClick empty px py = TypeError (set_pointer empty true px py)
  /\ forall s', onClick empty px py <> Normal s'.
Proof.
  intros empty. split.
  - reflexivity.
  - intros s'. discriminate.
Qed.

Section Picking.
Variables px py : R.

Lemma insert_In (a c : Candidate R) (l : list (Candidate R)) :
  In c (insert comparator a l) <-> c = a \/ In c l.
Proof.
  induction l as [|b rest IH]; simpl.
  - intuition.
  - match goal with
    | |- context [if ?t then _ else _] => destruct t
    end; simpl; rewrite ?IH; intuition.
Qed.

Lemma sort_In (c : Candidate R) (l : list (Candidate R)) :
  In c (sort comparator l) <-> In c l.
Proof.
  induction l as [|a rest IH]; simpl.
  - tauto.
  - rewrite insert_In, IH. intuition.
Qed.

(** The first element after sorting is one of least distance. *)
Lemma sort_head_least (l : list (Candidate R)) :
  forall first rest,
    sort comparator l = first :: rest ->
    In first l /\ forall c, In c l -> (distance first <= distance c)%R.
Proof.
  induction l as [|a l' IH]; intros first rest Hs.
  - discriminate.
  - split.
    { apply (sort_In first (a :: l')). rewrite Hs. now left. }
    simpl in Hs.
    destruct (sort comparator l') as [|b rest'] eqn:Hl'.
    + simpl in Hs. injection Hs as <- <-.
      intros c [<- | Hc]; [lra|].
      apply (sort_In c l') in Hc. rewrite Hl' in Hc. destruct Hc.
    + destruct (IH b rest' eq_refl) as [_ Hb].
      simpl in Hs. unfold gtb, comparator, zero in Hs.
      cbn [ltb sub ofZ RNum] in Hs.
      destruct (Rltb 0 (distance a - distance b)) eqn:E.
      * apply Rltb_true in E. injection Hs as <- <-.
        intros c [<- | Hc]; [lra | now apply Hb].
      * apply Rltb_false in E. injection Hs as <- <-.
        intros c [<- | Hc]; [lra|]. specialize (Hb c Hc). lra.
Qed.

(** Every entry of the mapped array carries its metaball, its distance to
    the press point and its position in [metaballs]. *)
Lemma withDistancesFrom_entries (balls : list (Metaball R)) :
  forall i c,
    In c (withDistancesFrom px py i balls) ->
    i <= index c
    /\ nth_error balls (Z.to_nat (index c - i)) = Some (metaball c)
    /\ distance c = distanceTo (metaball c) px py.
Proof.
  induction balls as [|ball rest IH]; intros i c Hc; simpl in Hc.
  - destruct Hc.
  - destruct Hc as [<- | Hc]; cbn [index metaball distance].
    + rewrite Z.sub_diag. split; [lia|split; reflexivity].
    + destruct (IH (i + 1) c Hc) as (Hi & Hn & Hd).
      split; [lia|split; [|exact Hd]].
      replace (Z.to_nat (index c - i)) with (S (Z.to_nat (index c - (i + 1))))
        by lia.
      exact Hn.
Qed.

Lemma withDistancesFrom_all (balls : list (Metaball R)) :
  forall i ball,
    In ball balls ->
    exists c, In c (withDistancesFrom px py i balls) /\ metaball c = ball.
Proof.
  induction balls as [|b rest IH]; intros i ball Hb; simpl in *.
  - destruct Hb.
  - destruct Hb as [<- | Hb].
    + eexists. split; [left; reflexivity | reflexivity].
    + destruct (IH (i + 1) ball Hb) as (c & Hc & Hm).
      exists c. split; [now right | exact Hm].
Qed.
End Picking.

(** X1: With at least one metaball [onClick] completes normally: it finds a
    metaball nearest to the press point and marks it as dragged when it is
    less than 200 away; otherwise the dragged index is left as it was. *)
Lemma onClick_picks_nearest (s : Space R) (px py : R) :
  metaballs s <> [] ->
  exists (k : nat) (ball : Metaball R),
    nth_error (metaballs s) k = Some ball
    /\ (forall other, In other (metaballs s) ->
          (distanceTo ball px py <= distanceTo other px py)%R)
    /\ onClick s px py
       = Normal (if Rltb (distanceTo ball px py) 200
                 then set_dragged (set_pointer s true px py) true (Z.of_nat k)
                 else set_pointer s true px py).
Proof.
  intros Hne. unfold onClick. cbn [metaballs set_pointer clicking].
  destruct (sort comparator (withDistancesFrom px py 0 (metaballs s)))
    as [|first rest] eqn:Hs.
  - exfalso. destruct (metaballs s) as [|b l] eqn:Hm; [now apply Hne|].
    destruct (withDistancesFrom_all px py (b :: l) 0 b (or_introl eq_refl))
      as (c & Hc & _).
    apply sort_In in Hc. rewrite Hs in Hc. destruct Hc.
  - destruct (sort_head_least _ _ _ Hs) as [Hin Hleast].
    destruct (withDistancesFrom_entries px py _ _ _ Hin) as (Hi & Hn & Hd).
    exists (Z.to_nat (index first)), (metaball first).
    rewrite Z.sub_0_r in Hn.
    split; [exact Hn|split].
    + intros other Ho.
      destruct (withDistancesFrom_all px py _ 0 other Ho) as (c & Hc & <-).
      destruct (withDistancesFrom_entries px py _ _ _ Hc) as (_ & _ & Hdc).
      rewrite <- Hd, <- Hdc. now apply Hleast.
    + rewrite Z2Nat.id by lia. rewrite <- Hd.
      cbn [ltb ofZ RNum]. now destruct (Rltb (distance first) 200).
Qed.

(** * Further properties of the program *)

(** ** The dragged index *)

Section DragIndex.
Context {num : Type} `{Num num}.

Lemma insert_elements (cmp : Candidate num -> Candidate num -> num)
    (a c : Candidate num) (l : list (Candidate num)) :
  In c (insert cmp a l) <-> c = a \/ In c l.
Proof.
  induction l as [|b rest IH]; simpl.
  - intuition.
  - destruct (gtb (cmp a b) zero); simpl; rewrite ?IH; intuition.
Qed.

Lemma sort_elements (cmp : Candidate num -> Candidate num -> num)
    (c : Candidate num) (l : list (Candidate num)) :
  In c (sort cmp l) <-> In c l.
Proof.
  induction l as [|a rest IH]; simpl.
  - tauto.
  - rewrite insert_elements, IH. intuition.
Qed.

Lemma withDistancesFrom_index (px py : num) (balls : list (Metaball num)) :
  forall i c,
    In c (withDistancesFrom px py i balls) ->
    i <= index c < i + Z.of_nat (length balls).
Proof.
  induction balls as [|ball rest IH]; intros i c Hc; simpl in Hc.
  - destruct Hc.
  - destruct Hc as [<- | Hc]; cbn [index length].
    + lia.
    + specialize (IH (i + 1) c Hc). lia.
Qed.

Lemma onClick_index (s : Space num) (px py : num) :
  draggedMetaballIndex (afterCall (onClick s px py)) = draggedMetaballIndex s
  \/ 0 <= draggedMetaballIndex (afterCall (onClick s px py))
       < Z.of_nat (length (metaballs s)).
Proof.
  unfold onClick. cbn [metaballs set_pointer clicking].
  destruct (sort comparator (withDistancesFrom px py 0 (metaballs s)))
    as [|first rest] eqn:Hs.
  - left. reflexivity.
  - destruct (ltb (distance first) (ofZ 200)).
    + right. cbn [afterCall draggedMetaballIndex set_dragged].
      assert (Hin : In first (withDistancesFrom px py 0 (metaballs s))).
      { apply (sort_elements comparator). rewrite Hs. now left. }
      apply withDistancesFrom_index in Hin. lia.
    + left. reflexivity.
Qed.

Lemma onClick_metaballs (s : Space num) (px py : num) :
  metaballs (afterCall (onClick s px py)) = metaballs s.
Proof.
  unfold onClick. cbn [metaballs set_pointer clicking].
  destruct (sort _ _) as [|first rest]; [reflexivity|].
  destruct (ltb _ _); reflexivity.
Qed.
End DragIndex.

(** X2: The dragged index is always [-1] or the index of a metaball: every method
    of [Space] keeps it so, in any arithmetic, and [onClick] does whether it
    completes or throws.  ([step] and [draw] look the metaball up by this
    index.) *)
Theorem drag_index_stays_valid {num : Type} `{Num num}
    (s : Space num) (px py gridSpacing : num) (x0 y0 xvel0 yvel0 radius0 : num) :
  validDrag s ->
  validDrag (afterCall (onClick s px py))
  /\ validDrag (onMove s px py)
  /\ validDrag (onRelease s)
  /\ validDrag (step s)
  /\ validDrag (draw s gridSpacing)
  /\ validDrag (addMetaball s x0 y0 xvel0 yvel0 radius0).
Proof.
  unfold validDrag. intros Hs. repeat apply conj.
  - rewrite onClick_metaballs.
    destruct (onClick_index s px py) as [-> | Hi]; [exact Hs | now right].
  - exact Hs.
  - now left.
  - cbn [step draggedMetaballIndex metaballs set_metaballs].
    now rewrite stepFrom_length.
  - exact Hs.
  - cbn [addMetaball draggedMetaballIndex metaballs set_metaballs].
    rewrite length_app. cbn [length]. lia.
Qed.

(** Two metaballs, the first one being dragged. *)
Lemma drag_index_stays_valid_witness :
  let s := arena [nearBall; farBall] 0 0 0 in
  validDrag s
  /\ validDrag (afterCall (onClick s 75%R 75%R))
  /\ validDrag (step s).
Proof.
  intros s.
  assert (Hs : validDrag s) by (right; simpl; lia).
  pose proof (drag_index_stays_valid s 75%R 75%R 10%R 0%R 0%R 0%R 0%R 1%R Hs)
    as (Hclick & _ & _ & Hstep & _).
  exact (conj Hs (conj Hclick Hstep)).
Defined.

(** ** The buffer after [draw] *)

Section Redraw.
Context {num : Type} `{Num num}.

Lemma draw_length (s : Space num) (gridSpacing : num) :
  length (data (draw s gridSpacing)) = length (data s).
Proof.
  rewrite draw_as_writes.
  generalize (data s).
  induction (list_prod _ _) as [|p rest IH]; intros l; simpl.
  - reflexivity.
  - now rewrite IH, store_length.
Qed.

(** Every index of the buffer is the index of a grid point. *)
Lemma index_is_grid_point (gw gh j : Z) :
  0 <= gw -> 0 <= gh -> 0 <= j < gw * gh ->
  exists gx gy, 0 <= gx < gw /\ 0 <= gy < gh /\ j = gy * gw + gx.
Proof.
  intros Hw Hh Hj.
  assert (0 < gw) by nia.
  exists (j mod gw), (j / gw).
  pose proof (Z.mod_pos_bound j gw ltac:(lia)).
  pose proof (Z.div_mod j gw ltac:(lia)).
  repeat split; try lia.
  - apply Z.div_pos; lia.
  - apply Z.div_lt_upper_bound; lia.
Qed.

Lemma draw_entry (d : num) (s : Space num) (gridSpacing : num) (n : nat) :
  0 <= gridWidth s -> 0 <= gridHeight s ->
  Z.of_nat (length (data s)) = gridWidth s * gridHeight s ->
  (n < length (data s))%nat ->
  exists gx gy,
    0 <= gx < gridWidth s /\ 0 <= gy < gridHeight s
    /\ Z.of_nat n = gy * gridWidth s + gx
    /\ nth n (data (draw s gridSpacing)) d
       = fieldAt (metaballs s) (mul (ofZ gx) gridSpacing) (mul (ofZ gy) gridSpacing).
Proof.
  intros Hw Hh Hlen Hn.
  destruct (index_is_grid_point (gridWidth s) (gridHeight s) (Z.of_nat n))
    as (gx & gy & Hx & Hy & Hj); try lia.
  exists gx, gy. repeat split; try lia.
  rewrite <- (draw_at d s gridSpacing gx gy Hlen Hx Hy).
  unfold at_. rewrite <- Hj. now rewrite Nat2Z.id.
Qed.
End Redraw.

(** X9: [draw] recomputes the whole buffer: on a grid with a buffer of
    [gridWidth * gridHeight] entries, what it leaves in the buffer does not
    depend on what was there before, and the buffer keeps its length.  In
    any arithmetic. *)
Theorem draw_replaces_buffer {num : Type} `{Num num}
    (s : Space num) (old : list num) (gridSpacing : num) :
  0 <= gridWidth s -> 0 <= gridHeight s ->
  Z.of_nat (length (data s)) = gridWidth s * gridHeight s ->
  length old = length (data s) ->
  data (draw (set_data s old) gridSpacing) = data (draw s gridSpacing)
  /\ length (data (draw s gridSpacing)) = length (data s).
Proof.
  intros Hw Hh Hlen Hold. split; [|apply draw_length].
  apply (nth_ext _ _ zero zero).
  - rewrite !draw_length. exact Hold.
  - intros n Hn. rewrite draw_length in Hn. cbn [data set_data] in Hn.
    destruct (draw_entry zero (set_data s old) gridSpacing n)
      as (gx & gy & Hx & _ & Hj & ->); cbn [data set_data gridWidth gridHeight];
      try assumption; try lia.
    destruct (draw_entry zero s gridSpacing n)
      as (gx' & gy' & Hx' & _ & Hj' & ->); try assumption; try lia.
    cbn [gridWidth set_data] in Hj, Hx.
    assert (gy' = gy) by nia. subst gy'.
    assert (gx' = gx) by lia. subst gx'.
    reflexivity.
Qed.

(** The 11 x 11 grid with its buffer full of sevens. *)
Lemma draw_replaces_buffer_witness :
  let s := arena [middleBall] 0 0 (-1) in
  data (draw (set_data s (repeat 7%R 121)) 10%R) = data (draw s 10%R)
  /\ length (data (draw s 10%R)) = length (data s).
Proof.
  intros s.
  apply (draw_replaces_buffer s (repeat 7%R 121) 10%R).
  - simpl. lia.
  - simpl. lia.
  - reflexivity.
  - reflexivity.
Defined.

(** X10: In any arithmetic, floating point included: the entry of a grid point
    for which every metaball fails the test [dist < 3 * radius] is exactly
    the 0 the sum starts from. *)
Theorem draw_zero_beyond_cutoff {num : Type} `{Num num}
    (d : num) (s : Space num) (gridSpacing : num) (gx gy : Z) :
  Z.of_nat (length (data s)) = gridWidth s * gridHeight s ->
  0 <= gx < gridWidth s ->
  0 <= gy < gridHeight s ->
  Forall (fun ball =>
            ltb (sqrt (add (pow2 (sub (mul (ofZ gx) gridSpacing) (x ball)))
                           (pow2 (sub (mul (ofZ gy) gridSpacing) (y ball)))))
                (mul (ofZ 3) (radius ball)) = false)
         (metaballs s) ->
  at_ (data (draw s gridSpacing)) (gy * gridWidth s + gx) d = ofZ 0.
Proof.
  intros Hlen Hx Hy Hfar.
  rewrite draw_at by assumption.
  now apply fieldAt_cutoff.
Qed.

(** The corner (0, 0) of the scenario of the specification, in binary64: it
    is more than 30 away from the metaball at (50, 50). *)
Lemma draw_zero_beyond_cutoff_witness :
  at_ (data (@draw _ F64 Binary64.scenario (@ofZ _ F64 10))) (0 * 11 + 0) S754_nan
  = S754_zero false.
Proof.
  apply (@draw_zero_beyond_cutoff _ F64 S754_nan Binary64.scenario
                                  (@ofZ _ F64 10) 0 0).
  - reflexivity.
  - simpl. lia.
  - simpl. lia.
  - repeat constructor.
Defined.

(** ** Free flight *)

Lemma stepBall_free_speed (s : Space R) (i : Z) (ball : Metaball R) :
  draggedMetaballIndex s <> i ->
  Rabs (xvel (stepBall s i ball)) = Rabs (xvel ball)
  /\ Rabs (yvel (stepBall s i ball)) = Rabs (yvel ball).
Proof.
  intros Hdrag. apply Z.eqb_neq in Hdrag.
  unfold stepBall, moveBall. rewrite Hdrag.
  unfold reflectBall, gtb.
  split_tests; rewrite ?Rabs_Ropp; split; reflexivity.
Qed.

(** X6: A metaball that is not dragged keeps its speed on each axis for ever:
    the walls only change the sign of a velocity, and nothing else touches
    it.  On any screen and for any radius. *)
Theorem free_ball_keeps_speed (n : nat) (s : Space R) (k : nat)
    (ball : Metaball R) :
  nth_error (metaballs s) k = Some ball ->
  draggedMetaballIndex s <> Z.of_nat k ->
  exists ball',
    nth_error (metaballs (steps n s)) k = Some ball'
    /\ Rabs (xvel ball') = Rabs (xvel ball)
    /\ Rabs (yvel ball') = Rabs (yvel ball)
    /\ radius ball' = radius ball.
Proof.
  revert s ball. induction n as [|n IH]; intros s ball Hk Hdrag.
  - exists ball. auto.
  - destruct (stepBall_free_speed s (Z.of_nat k) ball Hdrag) as [Hx Hy].
    destruct (IH (step s) (stepBall s (Z.of_nat k) ball)) as (b & Hb & Hbx & Hby & Hr).
    + now apply step_ball.
    + exact Hdrag.
    + exists b. split; [exact Hb|].
      rewrite Hbx, Hby, Hr, Hx, Hy, stepBall_radius. auto.
Qed.

(** The far metaball of the two, 25 ticks on, while the other is dragged. *)
Lemma free_ball_keeps_speed_witness :
  exists ball',
    nth_error (metaballs (steps 25 (arena [nearBall; farBall] 0 0 0))) 1
    = Some ball'
    /\ Rabs (xvel ball') = Rabs (-1)
    /\ Rabs (yvel ball') = Rabs 1
    /\ radius ball' = 10%R.
Proof.
  apply (free_ball_keeps_speed 25 (arena [nearBall; farBall] 0 0 0) 1 farBall).
  - reflexivity.
  - simpl. lia.
Defined.

(** ** The shape of the field *)

(** The contribution of a metaball in closed form: with [d] the distance and
    [r] the radius, [r / d - d / (6 r) + 1 / 6] inside the cutoff. *)
Lemma specContribution_closed (px py : R) (ball : Metaball R) :
  (0 < radius ball)%R ->
  (0 < specDistance px py ball < 3 * radius ball)%R ->
  specContribution px py ball
  = (radius ball / specDistance px py ball
     - specDistance px py ball / (6 * radius ball) + 1 / 6)%R.
Proof.
  intros Hr [Hd0 Hd]. unfold specContribution.
  apply Rltb_true in Hd. rewrite Hd. field. lra.
Qed.

Lemma specContribution_nonneg (px py : R) (ball : Metaball R) :
  (0 < radius ball)%R ->
  (0 < specDistance px py ball)%R ->
  (0 <= specContribution px py ball)%R.
Proof.
  intros Hr Hd0.
  destruct (Rlt_dec (specDistance px py ball) (3 * radius ball)) as [Hd | Hd].
  - rewrite specContribution_closed by lra.
    set (d := specDistance px py ball) in *. set (r := radius ball) in *.
    replace (r / d - d / (6 * r) + 1 / 6)%R
      with ((3 * r - d) * (2 * r + d) / (6 * r * d))%R by (field; lra).
    apply Rmult_le_pos.
    + apply Rmult_le_pos; lra.
    + apply Rlt_le, Rinv_0_lt_compat. apply Rmult_lt_0_compat; lra.
  - unfold specContribution.
    assert (E : Rltb (specDistance px py ball) (3 * radius ball) = false)
      by (apply Rltb_false; lra).
    rewrite E. lra.
Qed.

(** X11: One metaball alone: the sample of a point away from the centre is above
    1 (the iso level the constructor sets) exactly when the point is less
    than a radius away from the centre, and it is 1 at the distance of the
    radius; so the contour of a single metaball is its circle. *)
Theorem single_ball_level (ball : Metaball R) (px py : R) :
  (0 < radius ball)%R ->
  (0 < specDistance px py ball)%R ->
  Rltb 1 (fieldAt [ball] px py) = Rltb (specDistance px py ball) (radius ball)
  /\ (specDistance px py ball = radius ball -> fieldAt [ball] px py = 1%R).
Proof.
  intros Hr Hd0.
  rewrite fieldAt_spec. cbn [specField fold_right]. rewrite Rplus_0_r.
  set (d := specDistance px py ball) in *. set (r := radius ball) in *.
  destruct (Rlt_dec d (3 * r)) as [Hd | Hd].
  - rewrite (specContribution_closed px py ball Hr (conj Hd0 Hd)).
    fold d r.
    assert (Hform : (r / d - d / (6 * r) + 1 / 6 - 1
                     = (r - d) * ((6 * r + d) / (6 * r * d)))%R) by (field; lra).
    assert (Hpos : (0 < (6 * r + d) / (6 * r * d))%R).
    { apply Rmult_lt_0_compat; [lra|].
      apply Rinv_0_lt_compat. apply Rmult_lt_0_compat; lra. }
    set (K := ((6 * r + d) / (6 * r * d))%R) in *.
    set (f := (r / d - d / (6 * r) + 1 / 6)%R) in *.
    split.
    + destruct (Rltb d r) eqn:E.
      * apply Rltb_true in E. apply Rltb_true.
        assert (0 < (r - d) * K)%R by (apply Rmult_lt_0_compat; lra). lra.
      * apply Rltb_false in E. apply Rltb_false.
        assert (0 <= (d - r) * K)%R by (apply Rmult_le_pos; lra). lra.
    + intros Heq. rewrite Heq in Hform.
      replace (r - r)%R with 0%R in Hform by ring. lra.
  - unfold specContribution. fold d r.
    assert (E : Rltb d (3 * r) = false) by (apply Rltb_false; lra).
    rewrite E. split.
    + assert (E1 : Rltb d r = false) by (apply Rltb_false; lra).
      rewrite E1. apply Rltb_false. lra.
    + intros Heq. lra.
Qed.

(** The grid point (60, 50) of the scenario, at the distance of the
    radius. *)
Lemma single_ball_level_witness :
  Rltb 1 (fieldAt [middleBall] 60%R 50%R)
  = Rltb (specDistance 60 50 middleBall) 10.
Proof.
  refine (proj1 (single_ball_level middleBall 60%R 50%R _ _)).
  - simpl. lra.
  - unfold specDistance. simpl. apply sqrt_lt_R0. lra.
Defined.

Lemma specField_app (balls more : list (Metaball R)) (px py : R) :
  specField (balls ++ more) px py
  = (specField balls px py + specField more px py)%R.
Proof.
  induction balls as [|ball rest IH]; simpl.
  - lra.
  - rewrite IH. lra.
Qed.

Lemma specField_nonneg (balls : list (Metaball R)) (px py : R) :
  Forall (fun ball => (0 < radius ball)%R /\ (0 < specDistance px py ball)%R)
         balls ->
  (0 <= specField balls px py)%R.
Proof.
  induction 1 as [|ball rest [Hr Hd] _ IH]; simpl.
  - lra.
  - pose proof (specContribution_nonneg px py ball Hr Hd). lra.
Qed.

(** X12: Away from the centres, no metaball of positive radius ever lowers the
    field: a sample is never negative, and it does not go down when more
    metaballs are added. *)
Theorem field_only_grows (balls more : list (Metaball R)) (px py : R) :
  Forall (fun ball => (0 < radius ball)%R /\ (0 < specDistance px py ball)%R)
         (balls ++ more) ->
  (0 <= fieldAt balls px py <= fieldAt (balls ++ more) px py)%R.
Proof.
  intros Hall. apply Forall_app in Hall as [Hb Hm].
  rewrite !fieldAt_spec, specField_app.
  pose proof (specField_nonneg balls px py Hb).
  pose proof (specField_nonneg more px py Hm).
  lra.
Qed.

(** The grid point (60, 50) with the metaball in the middle, and then with
    the far one as well. *)
Lemma field_only_grows_witness :
  (0 <= fieldAt [middleBall] 60 50 <= fieldAt ([middleBall] ++ [farBall]) 60 50)%R.
Proof.
  apply (field_only_grows [middleBall] [farBall] 60%R 50%R).
  repeat constructor; simpl; try lra;
    unfold specDistance; simpl; apply sqrt_lt_R0; lra.
Defined.

(** ** The cells of the mesher *)

(** The cell of a vertex number below the count of [draw]. *)
Lemma vertex_cell (gw gh vid : Z) :
  1 <= gw -> 1 <= gh ->
  0 <= vid < 4 * (gw - 1) * (gh - 1) ->
  let id := Z.quot vid 4 in
  let gridx := Z.quot id (gh - 1) in
  let gridy := Z.rem id (gh - 1) in
  0 <= id < (gw - 1) * (gh - 1)
  /\ 0 <= gridx < gw - 1
  /\ 0 <= gridy < gh - 1
  /\ id = gridx * (gh - 1) + gridy.
Proof.
  intros Hw Hh Hv id gridx gridy.
  assert (Hh1 : 0 < gh - 1) by nia.
  assert (Hid : 0 <= id < (gw - 1) * (gh - 1)).
  { unfold id. rewrite Z.quot_div_nonneg by lia.
    split; [apply Z.div_pos; lia|]. apply Z.div_lt_upper_bound; lia. }
  unfold gridx, gridy.
  rewrite Z.quot_div_nonneg, Z.rem_mod_nonneg by lia.
  pose proof (Z.mod_pos_bound id (gh - 1) Hh1).
  pose proof (Z.div_mod id (gh - 1) ltac:(lia)).
  repeat split; try lia.
  - apply Z.div_pos; lia.
  - apply Z.div_lt_upper_bound; nia.
Qed.

Lemma texelFetch_in_range {num : Type} `{Num num}
    (tex : list num) (gw gh tx ty : Z) :
  Z.of_nat (length tex) = gw * gh ->
  0 <= tx < gw -> 0 <= ty < gh ->
  nth_error tex (Z.to_nat (ty * gw + tx)) = Some (texelFetch tex gw tx ty).
Proof.
  intros Hlen Hx Hy. unfold texelFetch, at_.
  apply nth_error_nth'. nia.
Qed.

(** X13: The vertex numbers that [draw] asks for and the cells of the grid: on a
    grid of at least one sample each way, every vertex number below the
    count is a vertex of a cell inside the grid, the four samples [main]
    fetches for it are entries of the texture, and every cell of the grid is
    the cell of the four vertex numbers from [4 * (gx * (gridHeight - 1) +
    gy)] on, all below the count. *)
Theorem vertices_and_cells {num : Type} `{Num num}
    (tex : list num) (gw gh : Z) :
  1 <= gw -> 1 <= gh ->
  Z.of_nat (length tex) = gw * gh ->
  (forall vid,
      0 <= vid < 4 * (gw - 1) * (gh - 1) ->
      let gridx := Z.quot (Z.quot vid 4) (gh - 1) in
      let gridy := Z.rem (Z.quot vid 4) (gh - 1) in
      0 <= gridx < gw - 1 /\ 0 <= gridy < gh - 1
      /\ forall dx dy : bool,
           nth_error tex (Z.to_nat ((gridy + Z.b2z dy) * gw + (gridx + Z.b2z dx)))
           = Some (texelFetch tex gw (gridx + Z.b2z dx) (gridy + Z.b2z dy)))
  /\ (forall gx gy (e c : bool),
        0 <= gx < gw - 1 -> 0 <= gy < gh - 1 ->
        let vid := 4 * (gx * (gh - 1) + gy) + 2 * Z.b2z e + Z.b2z c in
        0 <= vid < 4 * (gw - 1) * (gh - 1)
        /\ Z.quot (Z.quot vid 4) (gh - 1) = gx
        /\ Z.rem (Z.quot vid 4) (gh - 1) = gy).
Proof.
  intros Hw Hh Hlen. split.
  - intros vid Hv gridx gridy.
    destruct (vertex_cell gw gh vid Hw Hh Hv) as (_ & Hx & Hy & _).
    fold gridx gridy in Hx, Hy.
    repeat split; try lia.
    intros dx dy. apply texelFetch_in_range with (gh := gh); try assumption;
      destruct dx, dy; simpl Z.b2z; lia.
  - intros gx gy e c Hx Hy vid.
    assert (Hid : 0 <= gx * (gh - 1) + gy < (gw - 1) * (gh - 1)) by nia.
    destruct (decode_vertex (gx * (gh - 1) + gy) e c (proj1 Hid)) as (Hq & _ & _).
    fold vid in Hq. rewrite Hq.
    split.
    + unfold vid. destruct e, c; simpl Z.b2z; lia.
    + rewrite Z.quot_div_nonneg, Z.rem_mod_nonneg by lia.
      split.
      * symmetry. apply (Z.div_unique _ _ gx gy); lia.
      * symmetry. apply (Z.mod_unique _ _ gx gy); lia.
Qed.

(** The last vertex of the 2 x 2 grid of one cell. *)
Lemma vertices_and_cells_witness :
  0 <= Z.quot (Z.quot 3 4) (2 - 1) < 2 - 1
  /\ 0 <= Z.rem (Z.quot 3 4) (2 - 1) < 2 - 1.
Proof.
  assert (H1 : 1 <= 2) by lia.
  assert (Hlen : Z.of_nat (length (@signatureCell R _ 5)) = 2 * 2) by reflexivity.
  assert (Hv : 0 <= 3 < 4 * (2 - 1) * (2 - 1)) by lia.
  destruct (proj1 (vertices_and_cells (@signatureCell R _ 5) 2 2 H1 H1 Hlen) 3 Hv)
    as (Hx & Hy & _).
  exact (conj Hx Hy).
Defined.

Lemma vertex_split (vid : Z) :
  0 <= vid ->
  exists e c : bool, vid = 4 * Z.quot vid 4 + 2 * Z.b2z e + Z.b2z c.
Proof.
  intros Hv. rewrite Z.quot_div_nonneg by lia.
  pose proof (Z.div_mod vid 4 ltac:(lia)) as Hdm.
  pose proof (Z.mod_pos_bound vid 4 ltac:(lia)) as Hm.
  assert (Hcases : vid mod 4 = 0 \/ vid mod 4 = 1 \/ vid mod 4 = 2 \/ vid mod 4 = 3)
    by lia.
  destruct Hcases as [Hr | [Hr | [Hr | Hr]]].
  - exists false, false. simpl Z.b2z. lia.
  - exists false, true. simpl Z.b2z. lia.
  - exists true, false. simpl Z.b2z. lia.
  - exists true, true. simpl Z.b2z. lia.
Qed.








(** ** A field that does not cross the level *)

Section Uniform.
Context {num : Type} `{Num num}.

(** A cell whose four samples are all above the level, or all not above it,
    is case 15 or case 0, and none of its vertices is rendered. *)
Lemma uniform_cell_not_drawn (gw gh : Z) (tex : list num) (iso : num)
    (vid : Z) (above : bool) :
  1 <= gw -> 1 <= gh ->
  Z.of_nat (length tex) = gw * gh ->
  0 <= vid < 4 * (gw - 1) * (gh - 1) ->
  Forall (fun v => gtb v iso = above) tex ->
  main gw gh tex iso vid = {| render := false; gl_Position := None |}.
Proof.
  intros Hw Hh Hlen Hv Hall.
  destruct (vertex_cell gw gh vid Hw Hh Hv) as (Hid & Hx & Hy & _).
  destruct (vertex_split vid (proj1 Hv)) as (e & c & Hvid).
  rewrite Hvid.
  rewrite (main_follows_table gw gh tex iso (Z.quot vid 4) e c (proj1 Hid)).
  cbv zeta.
  assert (Hfetch : forall tx ty, 0 <= tx < gw -> 0 <= ty < gh ->
                                 gtb (texelFetch tex gw tx ty) iso = above).
  { intros tx ty Htx Hty. rewrite Forall_forall in Hall. apply Hall.
    eapply nth_error_In. apply (texelFetch_in_range tex gw gh); eassumption. }
  assert (Hcase : cellCase gw gh tex iso (Z.quot vid 4) = (if above then 15 else 0)).
  { unfold cellCase, cellCorners, corners, squareIndex.
    change (at_ [?a; _; _; _] 0 vec3_0) with a.
    cbv [at_ Z.to_nat Pos.to_nat Pos.iter_op Nat.add nth z].
    rewrite !Hfetch by lia. now destruct above. }
  rewrite Hcase. destruct above, e, c; reflexivity.
Qed.
End Uniform.

(** X15: When no sample of the texture is above the iso level, or when all are,
    the frame has no line: every vertex below the count of [draw] is
    discarded.  In any arithmetic. *)
Theorem uniform_field_draws_nothing {num : Type} `{Num num}
    (gw gh : Z) (tex : list num) (iso : num) (above : bool) :
  1 <= gw -> 1 <= gh ->
  Z.of_nat (length tex) = gw * gh ->
  Forall (fun v => gtb v iso = above) tex ->
  Forall (fun out => render out = false /\ gl_Position out = None)
         (map (main gw gh tex iso) (range (4 * (gw - 1) * (gh - 1)))).
Proof.
  intros Hw Hh Hlen Hall.
  apply Forall_forall. intros out Hin.
  apply in_map_iff in Hin as (vid & <- & Hvid).
  apply in_range in Hvid.
  rewrite (uniform_cell_not_drawn gw gh tex iso vid above) by assumption.
  split; reflexivity.
Qed.

(** A 3 x 3 texture of zeros in binary32, against the level 1. *)
Lemma uniform_field_draws_nothing_witness :
  Forall (fun out => render out = false /\ gl_Position out = None)
         (map (@main _ F32 3 3 (repeat (S754_zero false) 9) (@ofZ _ F32 1))
              (range (4 * (3 - 1) * (3 - 1)))).
Proof.
  apply (@uniform_field_draws_nothing _ F32 3 3 (repeat (S754_zero false) 9)
                                      (@ofZ _ F32 1) false).
  - lia.
  - lia.
  - reflexivity.
  - repeat constructor.
Defined.

(** X16: A space without metaballs, whose iso level is not below 0, draws
    nothing: after [draw] every sample is the 0 the sum starts from, and
    every vertex of the frame is discarded.  In any arithmetic. *)
Theorem empty_space_draws_nothing {num : Type} `{Num num}
    (s : Space num) (gridSpacing : num) :
  1 <= gridWidth s -> 1 <= gridHeight s ->
  Z.of_nat (length (data s)) = gridWidth s * gridHeight s ->
  metaballs s = [] ->
  gtb (ofZ 0) (isoLevel s) = false ->
  Forall (fun v => v = ofZ 0) (data (draw s gridSpacing))
  /\ Forall (fun out => render out = false /\ gl_Position out = None)
            (frameVertices s gridSpacing).
Proof.
  intros Hw Hh Hlen Hempty Hiso.
  assert (Hzero : Forall (fun v => v = ofZ 0) (data (draw s gridSpacing))).
  { apply Forall_forall. intros v Hin.
    apply (In_nth _ _ zero) in Hin as (n & Hn & <-).
    rewrite draw_length in Hn.
    destruct (draw_entry zero s gridSpacing n) as (gx & gy & _ & _ & _ & ->);
      try assumption; try lia.
    rewrite Hempty. reflexivity. }
  split; [exact Hzero|].
  unfold frameVertices, vertexCount.
  cbn [gridWidth gridHeight isoLevel draw set_data].
  apply Forall_forall. intros out Hin.
  apply in_map_iff in Hin as (vid & <- & Hvid).
  apply in_range in Hvid.
  rewrite (uniform_cell_not_drawn (gridWidth s) (gridHeight s) _ (isoLevel s)
                                  vid false); try assumption.
  - split; reflexivity.
  - change (Z.of_nat (length (data (draw s gridSpacing)))
            = gridWidth s * gridHeight s).
    now rewrite draw_length.
  - change (Forall (fun v => gtb v (isoLevel s) = false)
                   (data (draw s gridSpacing))).
    revert Hzero. apply Forall_impl. now intros v ->.
Qed.

(** The 100 x 100 screen with no metaball on it. *)
Lemma empty_space_draws_nothing_witness :
  let s := arena [] 0 0 (-1) in
  Forall (fun out => render out = false /\ gl_Position out = None)
         (frameVertices s 10%R).
Proof.
  intros s.
  refine (proj2 (empty_space_draws_nothing s 10%R _ _ _ _ _)).
  - simpl. lia.
  - simpl. lia.
  - reflexivity.
  - reflexivity.
  - unfold gtb. cbn [ltb ofZ RNum isoLevel s arena]. apply Rltb_false. lra.
Defined.

(** ** Setting up *)

Lemma steps_inBounds (s : Space R) (n : nat) :
  Forall (fitsScreen s) (metaballs s) ->
  Forall (inBounds s) (metaballs (steps (S n) s)).
Proof.
  intros Hfit. rewrite steps_S.
  destruct (steps_fitsScreen n s Hfit) as (Hf & Hw & Hh).
  change (Forall (inBounds s) (stepFrom (steps n s) 0 (metaballs (steps n s)))).
  assert (Hin : Forall (inBounds (steps n s))
                       (stepFrom (steps n s) 0 (metaballs (steps n s)))).
  { apply stepFrom_inBounds.
    revert Hf. apply Forall_impl. unfold fitsScreen. now rewrite Hw, Hh. }
  revert Hin. apply Forall_impl. unfold inBounds. now rewrite Hw, Hh.
Qed.

(** One turn of the loop of [App]: the new metaball has a radius between
    1/24 and 1/8 of the smaller side of the screen and lies within bounds. *)
Lemma spawnMetaball_ball (space : Space R) (u : Randoms R) :
  (0 < screenWidth space)%R -> (0 < screenHeight space)%R ->
  (0 <= uRadius u < 1)%R -> (0 <= uX u < 1)%R -> (0 <= uY u < 1)%R ->
  exists ball,
    spawnMetaball space u = set_metaballs space (metaballs space ++ [ball])
    /\ (0 < radius ball)%R
    /\ fitsScreen space ball
    /\ inBounds space ball.
Proof.
  intros Hw Hh Hr Hx Hy.
  eexists. split; [reflexivity|].
  cbn [radius x y]. unfold fitsScreen, inBounds. cbn [radius x y].
  unfold Math_min. cbn [ltb add sub mul div ofZ RNum].
  set (W := screenWidth space) in *. set (Ht := screenHeight space) in *.
  assert (Hm : exists m, (if Rltb Ht W then Ht else W) = m
                         /\ (0 < m <= W)%R /\ (m <= Ht)%R).
  { destruct (Rltb Ht W) eqn:E; eexists; (split; [reflexivity|]).
    - apply Rltb_true in E. lra.
    - apply Rltb_false in E. lra. }
  destruct Hm as (m & -> & Hm & HmH).
  set (r := (uRadius u * (m / 12) + m / 24)%R).
  assert (Hrr : (m / 24 <= r < m / 8)%R).
  { unfold r.
    assert (0 <= uRadius u * (m / 12) < m / 12)%R by nra. lra. }
  assert (Hxx : (0 <= uX u * (W - 2 * r) <= W - 2 * r)%R) by nra.
  assert (Hyy : (0 <= uY u * (Ht - 2 * r) <= Ht - 2 * r)%R) by nra.
  repeat split; lra.
Qed.

Lemma spawnMetaballs_balls (us : list (Randoms R)) :
  forall space : Space R,
    (0 < screenWidth space)%R -> (0 < screenHeight space)%R ->
    Forall (fun ball => fitsScreen space ball /\ inBounds space ball)
           (metaballs space) ->
    Forall (fun u => (0 <= uRadius u < 1)%R /\ (0 <= uX u < 1)%R
                     /\ (0 <= uY u < 1)%R) us ->
    length (metaballs (spawnMetaballs space us))
    = (length (metaballs space) + length us)%nat
    /\ screenWidth (spawnMetaballs space us) = screenWidth space
    /\ screenHeight (spawnMetaballs space us) = screenHeight space
    /\ Forall (fun ball => fitsScreen space ball /\ inBounds space ball)
              (metaballs (spawnMetaballs space us)).
Proof.
  induction us as [|u rest IH]; intros space Hw Hh Hballs Hus.
  - simpl. rewrite Nat.add_0_r. auto.
  - inversion Hus as [|? ? (Hr & Hx & Hy) Hrest]; subst.
    destruct (spawnMetaball_ball space u Hw Hh Hr Hx Hy)
      as (ball & Hspawn & _ & Hfit & Hin).
    unfold spawnMetaballs. cbn [fold_left]. rewrite Hspawn.
    destruct (IH (set_metaballs space (metaballs space ++ [ball])))
      as (Hlen & HW & HH & Hall); try assumption.
    + cbn [metaballs set_metaballs]. apply Forall_app. split; [exact Hballs|].
      constructor; [split; assumption | constructor].
    + unfold spawnMetaballs in *.
      rewrite Hlen, HW, HH. cbn [metaballs set_metaballs screenWidth screenHeight].
      rewrite length_app. cbn [length].
      repeat split; try lia. exact Hall.
Qed.

(** X7: The metaballs that [App] creates, whatever [Math.random] returns (in
    [0, 1)), on a screen of positive width and height: all of them are
    within bounds, at the start and after any number of ticks; none is
    wider or higher than the screen. *)
Theorem spawned_metaballs_stay_in_bounds
    (space : Space R) (us : list (Randoms R)) (n : nat) :
  (0 < screenWidth space)%R -> (0 < screenHeight space)%R ->
  metaballs space = [] ->
  Forall (fun u => (0 <= uRadius u < 1)%R /\ (0 <= uX u < 1)%R
                   /\ (0 <= uY u < 1)%R) us ->
  let s := spawnMetaballs space us in
  length (metaballs s) = length us
  /\ Forall (fitsScreen s) (metaballs s)
  /\ Forall (inBounds s) (metaballs (steps n s)).
Proof.
  intros Hw Hh Hempty Hus s.
  destruct (spawnMetaballs_balls us space Hw Hh) as (Hlen & HW & HH & Hall);
    [rewrite Hempty; constructor | exact Hus |].
  fold s in Hlen, HW, HH, Hall.
  assert (Hfit : Forall (fitsScreen s) (metaballs s)).
  { revert Hall. apply Forall_impl. intros ball [Hf _].
    unfold fitsScreen in *. now rewrite HW, HH. }
  split; [rewrite Hlen, Hempty; reflexivity|].
  split; [exact Hfit|].
  destruct n as [|n].
  - simpl. revert Hall. apply Forall_impl. intros ball [_ Hi].
    unfold inBounds in *. now rewrite HW, HH.
  - now apply steps_inBounds.
Qed.

(** Ten metaballs on the empty 100 x 100 screen, 50 ticks on. *)
Lemma spawned_metaballs_stay_in_bounds_witness :
  let s := spawnMetaballs (arena [] 0 0 (-1)) someRandoms in
  length (metaballs s) = 10%nat
  /\ Forall (fitsScreen s) (metaballs s)
  /\ Forall (inBounds s) (metaballs (steps 50 s)).
Proof.
  apply (spawned_metaballs_stay_in_bounds (arena [] 0 0 (-1)) someRandoms 50).
  - simpl. lra.
  - simpl. lra.
  - reflexivity.
  - repeat constructor; simpl; lra.
Defined.

(** ** Witnesses for the picking and the dragging *)

(** A press at (35, 45) with two metaballs on the screen. *)
Lemma onClick_picks_nearest_witness :
  let s := arena [nearBall; farBall] 0 0 (-1) in
  exists (k : nat) (ball : Metaball R),
    nth_error (metaballs s) k = Some ball
    /\ (forall other, In other (metaballs s) ->
          (distanceTo ball 35 45 <= distanceTo other 35 45)%R)
    /\ onClick s 35%R 45%R
       = Normal (if Rltb (distanceTo ball 35 45) 200
                 then set_dragged (set_pointer s true 35%R 45%R) true (Z.of_nat k)
                 else set_pointer s true 35%R 45%R).
Proof.
  intros s.
  apply (onClick_picks_nearest s 35%R 45%R).
  simpl. discriminate.
Defined.

(** The metaball at the left wall dragged towards (90, 50) for five ticks. *)
Lemma drag_converges_witness :
  let s := arena [wallBall] 90 50 0 in
  exists ball',
    nth_error (metaballs (steps 5 s)) 0 = Some ball'
    /\ radius ball' = 10%R
    /\ inBounds s ball'
    /\ distanceTo ball' 90 50 = ((9 / 10) ^ 5 * distanceTo wallBall 90 50)%R.
Proof.
  intros s.
  apply (drag_converges 5 s 0 wallBall).
  - reflexivity.
  - reflexivity.
  - unfold inBounds. simpl. lra.
  - simpl. lra.
  - simpl. lra.
Defined.

(** ** The pointer and the other metaballs *)

Lemma moveBall_ignores_pointer {num : Type} `{Num num}
    (s : Space num) (c : bool) (px py : num) (i : Z) (ball : Metaball num) :
  draggedMetaballIndex s <> i ->
  stepBall (set_pointer s c px py) i ball = stepBall s i ball.
Proof.
  intros Hdrag. apply Z.eqb_neq in Hdrag.
  unfold stepBall, moveBall. cbn [draggedMetaballIndex set_pointer].
  rewrite Hdrag. reflexivity.
Qed.

(** X3: Moving the pointer changes the next tick of the dragged metaball only:
    for every other metaball, [step] after [onMove] gives what [step] alone
    gives.  In any arithmetic. *)
Theorem pointer_moves_dragged_only {num : Type} `{Num num}
    (s : Space num) (px py : num) (k : nat) :
  draggedMetaballIndex s <> Z.of_nat k ->
  nth_error (metaballs (step (onMove s px py))) k
  = nth_error (metaballs (step s)) k.
Proof.
  intros Hdrag.
  rewrite !step_nth_error. cbn [onMove metaballs set_pointer].
  destruct (nth_error (metaballs s) k) as [ball|]; [|reflexivity].
  cbn [option_map]. f_equal.
  unfold onMove. now apply moveBall_ignores_pointer.
Qed.

(** The far metaball while the near one is dragged. *)
Lemma pointer_moves_dragged_only_witness :
  let s := arena [nearBall; farBall] 0 0 0 in
  nth_error (metaballs (step (onMove s 70%R 20%R))) 1
  = nth_error (metaballs (step s)) 1.
Proof.
  intros s.
  apply (pointer_moves_dragged_only s 70%R 20%R 1).
  simpl. lia.
Defined.

(** X5: Letting go throws the metaball: [onRelease] leaves the velocity of the
    last drag tick, and the first free tick moves the metaball on by it
    (when neither tick meets a wall). *)
Theorem release_throws (s : Space R) (k : nat) (ball : Metaball R) :
  nth_error (metaballs s) k = Some ball ->
  draggedMetaballIndex s = Z.of_nat k ->
  let newX := (1 / 10 * clickX s + 9 / 10 * x ball)%R in
  let newY := (1 / 10 * clickY s + 9 / 10 * y ball)%R in
  let vx := (newX - x ball)%R in
  let vy := (newY - y ball)%R in
  (radius ball <= newX <= screenWidth s - radius ball)%R ->
  (radius ball <= newY <= screenHeight s - radius ball)%R ->
  (radius ball <= newX + vx <= screenWidth s - radius ball)%R ->
  (radius ball <= newY + vy <= screenHeight s - radius ball)%R ->
  nth_error (metaballs (step (onRelease (step s)))) k
  = Some {| x := (newX + vx)%R; y := (newY + vy)%R;
            xvel := vx; yvel := vy; radius := radius ball |}.
Proof.
  intros Hk Hdrag newX newY vx vy Hx Hy Hx2 Hy2.
  pose proof (step_ball s k ball Hk) as H1.
  rewrite (stepBall_dragged_free s (Z.of_nat k) ball Hdrag Hx Hy) in H1.
  fold newX newY vx vy in H1.
  assert (H2 : nth_error (metaballs (onRelease (step s))) k
               = Some {| x := newX; y := newY; xvel := vx; yvel := vy;
                         radius := radius ball |}) by exact H1.
  rewrite (step_ball _ k _ H2). f_equal.
  unfold stepBall, moveBall.
  cbn [onRelease set_dragged draggedMetaballIndex].
  assert (E : (-1 =? Z.of_nat k) = false) by (apply Z.eqb_neq; lia).
  rewrite E.
  unfold reflectBall, gtb.
  cbn [screenWidth screenHeight onRelease set_dragged step set_metaballs].
  subst vx vy newX newY.
  split_tests; first [exfalso; lra | reflexivity].
Qed.

(** The metaball at the left wall, dragged towards (90, 50), then let go. *)
Lemma release_throws_witness :
  let s := arena [wallBall] 90 50 0 in
  nth_error (metaballs (step (onRelease (step s)))) 0
  = Some {| x := (1 / 10 * 90 + 9 / 10 * 10 + (1 / 10 * 90 + 9 / 10 * 10 - 10))%R;
            y := (1 / 10 * 50 + 9 / 10 * 50 + (1 / 10 * 50 + 9 / 10 * 50 - 50))%R;
            xvel := (1 / 10 * 90 + 9 / 10 * 10 - 10)%R;
            yvel := (1 / 10 * 50 + 9 / 10 * 50 - 50)%R;
            radius := 10%R |}.
Proof.
  intros s.
  apply (release_throws s 0 wallBall).
  - reflexivity.
  - reflexivity.
  - simpl. lra.
  - simpl. lra.
  - simpl. lra.
  - simpl. lra.
Defined.
